(** * Retirement planner: the projection engine of server.js

    A shallow embedding of the simulation-and-solver engine behind
    [POST /api/generate-excel]: the input helpers [toNum] and
    [normalizeRate], the closed-form solver [solveRRSPWithdrawal], the
    year loop [runProjection], the horizon iteration of mode
    [findMaxYears], the bisection of mode [solveExpenses], and the data
    rows and summary cells of the worksheet the handler writes.  The
    helpers [toNum] and [toInt] are also given character by character,
    on the string [String(v)] makes of a value.

    Numbers.  In the year loop and in the handler a JavaScript number
    is read as an exact rational ([Q]): the rounding of IEEE doubles is
    outside that part of the model, and a property the source states
    "up to floating-point error" is stated there for exact arithmetic.
    The withdrawal solver divides by the difference of two balances
    that are nearly equal, which carries their rounding into its
    result; it is therefore given on IEEE doubles as well (module
    [Double], over the library's [SpecFloat]), and what is proved of
    the value it returns is proved there.  [Number] and [parseInt]
    round to doubles too.  Equality of amounts is [==] ([Qeq]).  Loop
    counters and horizons are [nat]: a horizon that is zero or negative
    runs no iteration in the source, and is horizon [0] here. *)

From Stdlib Require Import QArith Qminmax Qround Qabs Qpower.
From Stdlib Require Import ZArith NArith List Bool Arith Lia Lqa.
From Stdlib Require Import SpecFloat.
Import ListNotations.

Open Scope Q_scope.

(** * The program *)

(** ** Helpers *)

(** What [toNum] can be handed.  [String(v).trim()], the removal of
    every character other than a digit, [.] or [-], and [Number] are
    summarised by their outcome: the field is missing, blank, read as a
    finite number, or not read as one. *)
Inductive RawField : Type :=
| Absent
| Blank
| Numeric (n : Q)
| Unreadable.

Definition toNum (v : RawField) : Q :=
  match v with
  | Absent => 0
  | Blank => 0
  | Numeric n => n
  | Unreadable => 0
  end.

(** [n > 1 ? n / 100 : n] *)
Definition normalizeRate (x : RawField) : Q :=
  let n := toNum x in
  if Qlt_le_dec 1 n then n / 100 else n.

(** [const EPS = 1e-9] *)
Definition EPS : Q := 1 # 1000000000.

(** [Math.pow(b, t)] at a loop counter [t]. *)
Definition pow (b : Q) (t : nat) : Q := Qpower b (Z.of_nat t).

(** [Math.round]: the nearest integer, halves upwards. *)
Definition round (x : Q) : Z := Qfloor (x + (1 # 2)).

(** ** The closed-form withdrawal solver *)

(** The solver on exact rationals, as the year loop and the handler
    below use it; its twin on doubles is [Double.solveRRSPWithdrawal]. *)
Section SolveRRSP.

Variables (yearsToRetire yearsToPlan : nat).
Variables (rrspInitialBalance rrspContribute rrspRoi : Q).

(** One turn of the loop of [simulate]: the closing balance of year
    [t] from the closing balance of the year before. *)
Definition rrsp_year (W : Q) (t : nat) (endBalPrev : Q) : Q :=
  let init := if (t =? 0)%nat then rrspInitialBalance
              else endBalPrev * (1 + rrspRoi) in
  let contrib := if (t <? yearsToRetire)%nat then rrspContribute else 0 in
  let withdraw := if (yearsToRetire <=? t)%nat then W else 0 in
  init + contrib - withdraw.

(** [for (let t = ...; t < yearsToPlan; t++)] with [k] turns left. *)
Fixpoint simulate_from (W : Q) (k t : nat) (endBalPrev : Q) : Q :=
  match k with
  | O => endBalPrev
  | S k' => simulate_from W k' (S t) (rrsp_year W t endBalPrev)
  end.

Definition simulate (W : Q) : Q :=
  simulate_from W yearsToPlan 0 rrspInitialBalance.

Definition solveRRSPWithdrawal : Q :=
  let a := simulate 0 in
  let a1 := simulate 1 in
  let b := a - a1 in
  if Qlt_le_dec 0 b then Qmax 0 (a / b) else 0.

End SolveRRSP.

(** ** The numbers of the solver and of the helpers as doubles *)

(** A JavaScript number as the double it is: IEEE 754 binary64 in the
    terms of the library's [SpecFloat] (53 bits of precision, exponents
    up to 1024, rounding to the nearest double, ties to even), with the
    two zeros, the infinities and [NaN]. *)
Module Double.

Definition double : Type := spec_float.

(** The double nearest to an integer. *)
Definition ofZ (z : Z) : double := binary_normalize 53 1024 z 0 false.

Definition zero : double := S754_zero false.
Definition one : double := ofZ 1.

(** [x + y], [x - y], [x * y] and [x / y] *)
Definition add : double -> double -> double := SFadd 53 1024.
Definition sub : double -> double -> double := SFsub 53 1024.
Definition mul : double -> double -> double := SFmul 53 1024.
Definition div : double -> double -> double := SFdiv 53 1024.

(** The double nearest to a rational: the division rounds the exact
    quotient of the two integers, each written as a mantissa with the
    exponent 0. *)
Definition ofQ (q : Q) : double :=
  match Qnum q with
  | Z0 => zero
  | Z.pos n => div (S754_finite false n 0) (S754_finite false (Qden q) 0)
  | Z.neg n => div (S754_finite true n 0) (S754_finite false (Qden q) 0)
  end.

(** [Number.isFinite(x)] *)
Definition isFinite (x : double) : bool :=
  match x with
  | S754_zero _ | S754_finite _ _ _ => true
  | S754_infinity _ | S754_nan => false
  end.

(** The rational a finite double is. *)
Definition toQ (x : double) : Q :=
  match x with
  | S754_finite s m e => inject_Z (cond_Zopp s (Z.pos m)) * Qpower 2 e
  | _ => 0
  end.

(** The integer a finite double is, when it is one; [None] for the
    infinities and [NaN]. *)
Definition toInteger (x : double) : option Z :=
  match x with
  | S754_zero _ => Some 0%Z
  | S754_finite s m e => Some (cond_Zopp s (Z.shiftl (Z.pos m) e))
  | S754_infinity _ | S754_nan => None
  end.

(** [Math.max(x, y)]: [NaN] when an argument is [NaN], and [+0] above
    [-0]. *)
Definition Math_max (x y : double) : double :=
  match SFcompare x y with
  | None => S754_nan
  | Some Lt => y
  | Some Gt => x
  | Some Eq =>
      match x with
      | S754_zero true => y
      | _ => x
      end
  end.

(** [const EPS = 1e-9]: the double nearest to one billionth, which is
    what the division of 1 by 1e9 rounds to. *)
Definition EPS : double := div one (ofZ 1000000000).

(** [n > 1 ? n / 100 : n] *)
Definition normalizeRate (n : double) : double :=
  if SFltb one n then div n (ofZ 100) else n.

Section SolveRRSP.

Variables (yearsToRetire yearsToPlan : nat).
Variables (rrspInitialBalance rrspContribute rrspRoi : double).

(** One turn of the loop of [simulate]: [init + contrib - withdraw],
    each operation rounded.  The tax-deferred block of the body of
    [runProjection] computes [rrspEnd] by the same expressions. *)
Definition rrsp_year (W : double) (t : nat) (endBalPrev : double) : double :=
  let init := if (t =? 0)%nat then rrspInitialBalance
              else mul endBalPrev (add one rrspRoi) in
  let contrib := if (t <? yearsToRetire)%nat then rrspContribute else zero in
  let withdraw := if (yearsToRetire <=? t)%nat then W else zero in
  sub (add init contrib) withdraw.

(** [for (let t = ...; t < yearsToPlan; t++)] with [k] turns left. *)
Fixpoint simulate_from (W : double) (k t : nat) (endBalPrev : double) : double :=
  match k with
  | O => endBalPrev
  | S k' => simulate_from W k' (S t) (rrsp_year W t endBalPrev)
  end.

Definition simulate (W : double) : double :=
  simulate_from W yearsToPlan 0 rrspInitialBalance.

(** [b > 0 ? Math.max(0, a / b) : 0] *)
Definition solveRRSPWithdrawal : double :=
  let a := simulate zero in
  let a1 := simulate one in
  let b := sub a a1 in
  if SFltb zero b then Math_max zero (div a b) else zero.

End SolveRRSP.


End Double.

(** ** The request and its parsed fields *)

(** [parseInt(v, 10)] gives an integer, or [NaN] or an infinity
    ([None]), which [Number.isFinite] refuses. *)
Definition toInt (v : option Z) (def : Z) : Z :=
  match v with
  | Some n => n
  | None => def
  end.

(** The three paths through the handler: the one of
    [mode === "findMaxYears"], the one of [mode === "solveExpenses"],
    and the one every other mode takes, ["standard"] among them. *)
Inductive Mode : Type := standard | findMaxYears | solveExpenses.

(** The body of the request, field by field. *)
Record Inputs : Type := {
  in_currentAge : option Z;
  in_yearsToRetire : option Z;
  in_yearsToPlan : option Z;
  in_incomeAnnual : RawField;
  in_expensesAnnual : RawField;
  in_inflationRate : RawField;
  in_rrspInitialBalance : RawField;
  in_rrspContribute : RawField;
  in_rrspRoi : RawField;
  in_tfsaInitialBalance : RawField;
  in_tfsaContribute : RawField;
  in_tfsaRoi : RawField;
  in_nonRegisteredInitialBalance : RawField;
  in_nonRegisteredRoi : RawField
}.

(** The constants the handler binds before it defines [runProjection]. *)
Record Plan : Type := {
  currentAge : Z;
  yearsToRetire : nat;
  yearsToPlanInput : Z;
  incomeAnnual : Q;
  expensesAnnual : Q;
  inflationRate : Q;
  rrspInitialBalance : Q;
  rrspContribute : Q;
  rrspRoi : Q;
  tfsaInitialBalance : Q;
  tfsaContribute : Q;
  tfsaRoi : Q;
  nonRegisteredInitialBalance : Q;
  nonRegisteredRoi : Q
}.

Definition readPlan (d : Inputs) : Plan := {|
  currentAge := toInt (in_currentAge d) 0;
  yearsToRetire := Z.to_nat (Z.max 0 (toInt (in_yearsToRetire d) 0));
  yearsToPlanInput := toInt (in_yearsToPlan d) 0;
  incomeAnnual := toNum (in_incomeAnnual d);
  expensesAnnual := toNum (in_expensesAnnual d);
  inflationRate := normalizeRate (in_inflationRate d);
  rrspInitialBalance := toNum (in_rrspInitialBalance d);
  rrspContribute := toNum (in_rrspContribute d);
  rrspRoi := normalizeRate (in_rrspRoi d);
  tfsaInitialBalance := toNum (in_tfsaInitialBalance d);
  tfsaContribute := toNum (in_tfsaContribute d);
  tfsaRoi := normalizeRate (in_tfsaRoi d);
  nonRegisteredInitialBalance := toNum (in_nonRegisteredInitialBalance d);
  nonRegisteredRoi := normalizeRate (in_nonRegisteredRoi d)
|}.

Definition MAX_YEARS_CAP : nat := 120.

(** ** The year loop *)

(** One object pushed on [rows]. *)
Record Row : Type := {
  age : Z;
  income : Q;
  expense : Q;
  rrspInit : Q;
  rrspC : Q;
  rrspW : Q;
  rrspEnd : Q;
  tfsaInit : Q;
  tfsaC : Q;
  tfsaW : Q;
  tfsaEnd : Q;
  nonrInit : Q;
  nonrC : Q;
  nonrW : Q;
  nonrEnd : Q
}.

(** The variables [runProjection] declares outside its loop. *)
Record Vars : Type := {
  rrspEndPrev : Q;
  tfsaEndPrev : Q;
  nonrEndPrev : Q;
  depletedEarly : bool;
  nonrCleared : bool
}.

(** What the two ladders decide in a year: the four [let] amounts and
    the flag. *)
Record Flows : Type := {
  f_tfsaC : Q;
  f_tfsaW : Q;
  f_nonrC : Q;
  f_nonrW : Q;
  f_depleted : bool
}.

(** [if (t < yearsToRetire) { ... }] *)
Definition preRetirement
    (income expense rrspC tfsaC tfsaInit nonrInit : Q) (depleted : bool) : Flows :=
  let need := expense + rrspC + tfsaC in
  if Qlt_le_dec income need then
    let short := need - income in
    let nonrW := Qmin nonrInit short in
    let short1 := short - nonrW in
    let tfsaW := if Qlt_le_dec EPS short1 then Qmin (tfsaInit + tfsaC) short1 else 0 in
    let short2 := if Qlt_le_dec EPS short1 then short1 - tfsaW else short1 in
    {| f_tfsaC := tfsaC; f_tfsaW := tfsaW; f_nonrC := 0; f_nonrW := nonrW;
       f_depleted := if Qlt_le_dec EPS short2 then true else depleted |}
  else
    {| f_tfsaC := tfsaC; f_tfsaW := 0; f_nonrC := income - need; f_nonrW := 0;
       f_depleted := depleted |}.

(** [if (t >= yearsToRetire) { ... }]; [tfsaTarget] is the value
    [tfsaC] enters with. *)
Definition postRetirement
    (expense rrspW tfsaTarget tfsaInit nonrInit : Q) (depleted : bool) : Flows :=
  let nonrNeed := expense + tfsaTarget - rrspW in
  if Qlt_le_dec 0 nonrNeed then
    if Qlt_le_dec (nonrInit + EPS) nonrNeed then
      let nonrW := nonrInit in
      let tfsaC := Qmin tfsaTarget (Qmax 0 (nonrW + rrspW - expense)) in
      let covered := rrspW + nonrW in
      if Qlt_le_dec (covered + EPS) expense then
        let gap := expense - covered in
        let tfsaW := Qmin tfsaInit gap in
        let remaining := gap - tfsaW in
        {| f_tfsaC := 0; f_tfsaW := tfsaW; f_nonrC := 0; f_nonrW := nonrW;
           f_depleted := if Qlt_le_dec EPS remaining then true else depleted |}
      else
        {| f_tfsaC := tfsaC; f_tfsaW := 0; f_nonrC := 0; f_nonrW := nonrW;
           f_depleted := depleted |}
    else
      {| f_tfsaC := tfsaTarget; f_tfsaW := 0; f_nonrC := 0; f_nonrW := nonrNeed;
         f_depleted := depleted |}
  else
    {| f_tfsaC := tfsaTarget; f_tfsaW := 0; f_nonrC := - nonrNeed; f_nonrW := 0;
       f_depleted := depleted |}.

(** [if (x < EPS) x = 0] *)
Definition floorEPS (x : Q) : Q := if Qlt_le_dec x EPS then 0 else x.

Section Projection.

Variable p : Plan.
Variables (expensesBase : Q) (yearsToPlanLocal : nat) (rrspWithdrawFixedUsed : Q).

(** The body of the loop up to [rows.push]: the row of year [t] and
    the variables as the body leaves them. *)
Definition year (t : nat) (v : Vars) : Row * Vars :=
  let retired := (yearsToRetire p <=? t)%nat in
  let income := if retired then 0 else incomeAnnual p in
  let expense := expensesBase * pow (1 + inflationRate p) t in
  let rrspInit := if (t =? 0)%nat then rrspInitialBalance p
                  else rrspEndPrev v * (1 + rrspRoi p) in
  let rrspC := if retired then 0 else rrspContribute p in
  let rrspW := if retired then rrspWithdrawFixedUsed else 0 in
  let rrspEnd := rrspInit + rrspC - rrspW in
  let tfsaInit := if (t =? 0)%nat then tfsaInitialBalance p
                  else tfsaEndPrev v * (1 + tfsaRoi p) in
  let tfsaTarget := if nonrCleared v then 0 else tfsaContribute p in
  let nonrInit := if (t =? 0)%nat then nonRegisteredInitialBalance p
                  else nonrEndPrev v * (1 + nonRegisteredRoi p) in
  let f := if retired
           then postRetirement expense rrspW tfsaTarget tfsaInit nonrInit
                               (depletedEarly v)
           else preRetirement income expense rrspC tfsaTarget tfsaInit nonrInit
                              (depletedEarly v) in
  let nonrEnd := floorEPS (nonrInit + f_nonrC f - f_nonrW f) in
  let cleared := if Qeq_dec nonrEnd 0 then true else nonrCleared v in
  let tfsaEnd := floorEPS (tfsaInit + f_tfsaC f - f_tfsaW f) in
  ({| age := currentAge p + Z.of_nat t; income := income; expense := expense;
      rrspInit := rrspInit; rrspC := rrspC; rrspW := rrspW; rrspEnd := rrspEnd;
      tfsaInit := tfsaInit; tfsaC := f_tfsaC f; tfsaW := f_tfsaW f;
      tfsaEnd := tfsaEnd;
      nonrInit := nonrInit; nonrC := f_nonrC f; nonrW := f_nonrW f;
      nonrEnd := nonrEnd |},
   {| rrspEndPrev := rrspEnd; tfsaEndPrev := tfsaEnd; nonrEndPrev := nonrEnd;
      depletedEarly := f_depleted f; nonrCleared := cleared |}).

(** [for (let t = ...; t < yearsToPlanLocal; t++)] with [k] turns
    left; the turn that sets the flag before the last year pushes its
    row and leaves the loop. *)
Fixpoint years (k t : nat) (v : Vars) : list Row * Vars :=
  match k with
  | O => ([], v)
  | S k' =>
      let (row, v') := year t v in
      if depletedEarly v' && (t <? yearsToPlanLocal - 1)%nat
      then ([row], v')
      else let (rows, v'') := years k' (S t) v' in (row :: rows, v'')
  end.

Definition startVars : Vars :=
  {| rrspEndPrev := rrspInitialBalance p;
     tfsaEndPrev := tfsaInitialBalance p;
     nonrEndPrev := nonRegisteredInitialBalance p;
     depletedEarly := false;
     nonrCleared := false |}.

Record ProjectionResult : Type := {
  rows : list Row;
  depleted : bool;
  endingTotal : Q
}.

Definition runProjection : ProjectionResult :=
  let (rs, v) := years yearsToPlanLocal 0 startVars in
  {| rows := rs;
     depleted := depletedEarly v;
     endingTotal :=
       match rev rs with
       | [] => 0
       | last :: _ => rrspEnd last + tfsaEnd last + nonrEnd last
       end |}.

End Projection.

(** ** The solvers of the handler *)

Section Handler.

Variable p : Plan.

Definition solveRrspWForHorizon (N : nat) : Q :=
  solveRRSPWithdrawal (yearsToRetire p) N
    (rrspInitialBalance p) (rrspContribute p) (rrspRoi p).

(** [{ yearsSurvived: proj.rows.length, rrspW }] *)
Definition simulateGivenN (N : nat) (expensesBase : Q) : nat * Q :=
  let rrspW := solveRrspWForHorizon N in
  let proj := runProjection p expensesBase N rrspW in
  (length (rows proj), rrspW).

(** The loop [for (let iter = 0; iter < 25; iter++)] of mode
    [findMaxYears] with [iter] turns left and candidate [N]:
    [Some (yearsToPlanFinal, rrspWithdrawFixedFinal)] when a turn
    assigned them and left the loop, and the candidate the loop ended
    with. *)
Fixpoint fixedPoint (iter N : nat) : option (nat * Q) * nat :=
  match iter with
  | O => (None, N)
  | S iter' =>
      let yearsSurvived := fst (simulateGivenN N (expensesAnnual p)) in
      if (yearsSurvived =? N)%nat
      then (Some (N, solveRrspWForHorizon N), N)
      else if (yearsSurvived <=? 0)%nat
           then (Some (0%nat, 0), yearsSurvived)
           else fixedPoint iter' yearsSurvived
  end.

(** [yearsToPlanFinal] and [rrspWithdrawFixedFinal] as mode
    [findMaxYears] leaves them. *)
Definition findMaxYearsResult : nat * Q :=
  match fixedPoint 25 MAX_YEARS_CAP with
  | (Some r, _) => r
  | (None, N) =>
      let yearsToPlanFinal := Nat.max 1 N in
      (yearsToPlanFinal, solveRrspWForHorizon yearsToPlanFinal)
  end.

(** [Math.max(1, yearsToPlan)] in the two modes that read the
    horizon from the request. *)
Definition yearsToPlanOfInput : nat :=
  Nat.max 1 (Z.to_nat (Z.max 1 (yearsToPlanInput p))).

Section SolveExpenses.

Variable yearsToPlanLocal : nat.

Definition rrspWForSolve : Q := solveRrspWForHorizon yearsToPlanLocal.

Definition depletesAt (expensesBase : Q) : bool :=
  depleted (runProjection p expensesBase yearsToPlanLocal rrspWForSolve).

Definition hiStart : Q :=
  Qmax 1000
    ((rrspInitialBalance p + tfsaInitialBalance p
      + nonRegisteredInitialBalance p) * 2).

(** [while (!runProjection(hi, ...).depletedEarly && hi < 1e9) hi *= 2]
    with [fuel] turns allowed. *)
Fixpoint expand (fuel : nat) (hi : Q) : Q :=
  match fuel with
  | O => hi
  | S fuel' =>
      if negb (depletesAt hi) && (if Qlt_le_dec hi 1000000000 then true else false)
      then expand fuel' (hi * 2)
      else hi
  end.

(** [hi] starts at 1000 or more, so the loop leaves within twenty
    doublings ([expand_exits] below). *)
Definition hiExpanded : Q := expand 20 hiStart.

(** [for (let i = 0; i < 50; i++)] with [i] turns left. *)
Fixpoint bisect (i : nat) (lo hi : Q) : Q * Q :=
  match i with
  | O => (lo, hi)
  | S i' =>
      let mid := (lo + hi) / 2 in
      if depletesAt mid then bisect i' lo mid else bisect i' mid hi
  end.

(** The value [Math.round(lo)] of the right-hand side of the
    assignment to [solvedInitialExpense]. *)
Definition solvedInitialExpense : Z :=
  round (fst (bisect 50 0 hiExpanded)).

End SolveExpenses.

(** The projection whose rows the handler renders.  In mode
    [solveExpenses] the search above runs, but the statement that
    stores its result assigns to [solvedInitialExpense] above the [let]
    that declares it in the same block; the assignment throws and the
    [catch] clause answers with status 500, so no projection is
    rendered ([None]). *)
Definition finalProjection (mode : Mode) : option ProjectionResult :=
  match mode with
  | standard =>
      let yearsToPlanFinal := yearsToPlanOfInput in
      Some (runProjection p (expensesAnnual p) yearsToPlanFinal
              (solveRrspWForHorizon yearsToPlanFinal))
  | findMaxYears =>
      Some (runProjection p (expensesAnnual p) (fst findMaxYearsResult)
              (snd findMaxYearsResult))
  | solveExpenses => None
  end.

End Handler.

(** ** The run, year by year *)

Section Trajectory.

Variable p : Plan.
Variables (expensesBase : Q) (W : Q).

Local Abbreviation yearOf := (year p expensesBase W).

(** The variables at the top of the loop body in year [t], had no
    turn left the loop. *)
Fixpoint varsBefore (t : nat) : Vars :=
  match t with
  | O => startVars p
  | S t' => snd (yearOf t' (varsBefore t'))
  end.

(** The row of year [t]. *)
Definition rowAt (t : nat) : Row := fst (yearOf t (varsBefore t)).

Local Abbreviation before := varsBefore.

(** The flows of year [t], as the ladders return them. *)
Definition flowsAt (t : nat) : Flows :=
  let v := before t in
  let expense := expensesBase * pow (1 + inflationRate p) t in
  let tfsaInit := if (t =? 0)%nat then tfsaInitialBalance p
                  else tfsaEndPrev v * (1 + tfsaRoi p) in
  let tfsaTarget := if nonrCleared v then 0 else tfsaContribute p in
  let nonrInit := if (t =? 0)%nat then nonRegisteredInitialBalance p
                  else nonrEndPrev v * (1 + nonRegisteredRoi p) in
  if (yearsToRetire p <=? t)%nat
  then postRetirement expense W tfsaTarget tfsaInit nonrInit (depletedEarly v)
  else preRetirement (incomeAnnual p) expense (rrspContribute p) tfsaTarget
                     tfsaInit nonrInit (depletedEarly v).

(** The tax-free contribution target of year [t]. *)
Definition tfsaTargetAt (t : nat) : Q :=
  if nonrCleared (before t) then 0 else tfsaContribute p.

End Trajectory.

(** ** The retirement ladder in the words of the specification *)

(** The ladder in the words of the specification: the need is the
    expense less the fixed withdrawal, floored at zero; a surplus of
    the withdrawal over the expense is the taxable contribution; the
    taxable account withdraws up to its balance; the tax-free account
    withdraws the rest, up to opening balance plus contribution. *)
Definition specRetirementYear (r : Row) : Prop :=
  let need := Qmax 0 (expense r - rrspW r) in
  nonrC r == Qmax 0 (rrspW r - expense r) /\
  nonrW r == Qmin (nonrInit r) need /\
  tfsaW r == Qmin (tfsaInit r + tfsaC r) (need - nonrW r).

(** ** Counting rows on scaled amounts *)

(** The loop of [runProjection] multiplies denominators year after
    year, and the fixed withdrawal brings a large one of its own.  The
    definitions below repeat the body of the loop on the variables that
    decide the row count, every amount of a year multiplied by the
    scale of that year: the scale starts at the denominators of the
    withdrawal and of the tolerance and grows each year by the
    denominators of the three rates, so that for a plan with whole
    amounts the loop runs on whole numbers.  The tolerance is scaled
    with the amounts.  [rows_core] in the second part shows that
    [coreRows] counts the rows of [runProjection]. *)

(** [floorEPS] with the tolerance as an argument. *)
Definition floorWith (eps x : Q) : Q := if Qlt_le_dec x eps then 0 else x.

(** [preRetirement] with the tolerance as an argument. *)
Definition preRetirementWith
    (eps income expense rrspC tfsaC tfsaInit nonrInit : Q) (depleted : bool) : Flows :=
  let need := expense + rrspC + tfsaC in
  if Qlt_le_dec income need then
    let short := need - income in
    let nonrW := Qmin nonrInit short in
    let short1 := short - nonrW in
    let tfsaW := if Qlt_le_dec eps short1 then Qmin (tfsaInit + tfsaC) short1 else 0 in
    let short2 := if Qlt_le_dec eps short1 then short1 - tfsaW else short1 in
    {| f_tfsaC := tfsaC; f_tfsaW := tfsaW; f_nonrC := 0; f_nonrW := nonrW;
       f_depleted := if Qlt_le_dec eps short2 then true else depleted |}
  else
    {| f_tfsaC := tfsaC; f_tfsaW := 0; f_nonrC := income - need; f_nonrW := 0;
       f_depleted := depleted |}.

(** [postRetirement] with the tolerance as an argument. *)
Definition postRetirementWith
    (eps expense rrspW tfsaTarget tfsaInit nonrInit : Q) (depleted : bool) : Flows :=
  let nonrNeed := expense + tfsaTarget - rrspW in
  if Qlt_le_dec 0 nonrNeed then
    if Qlt_le_dec (nonrInit + eps) nonrNeed then
      let nonrW := nonrInit in
      let tfsaC := Qmin tfsaTarget (Qmax 0 (nonrW + rrspW - expense)) in
      let covered := rrspW + nonrW in
      if Qlt_le_dec (covered + eps) expense then
        let gap := expense - covered in
        let tfsaW := Qmin tfsaInit gap in
        let remaining := gap - tfsaW in
        {| f_tfsaC := 0; f_tfsaW := tfsaW; f_nonrC := 0; f_nonrW := nonrW;
           f_depleted := if Qlt_le_dec eps remaining then true else depleted |}
      else
        {| f_tfsaC := tfsaC; f_tfsaW := 0; f_nonrC := 0; f_nonrW := nonrW;
           f_depleted := depleted |}
    else
      {| f_tfsaC := tfsaTarget; f_tfsaW := 0; f_nonrC := 0; f_nonrW := nonrNeed;
         f_depleted := depleted |}
  else
    {| f_tfsaC := tfsaTarget; f_tfsaW := 0; f_nonrC := - nonrNeed; f_nonrW := 0;
       f_depleted := depleted |}.

(** The flows [g] are the flows [f] times [s], with the same flag. *)
Definition flowsScale (s : Q) (f g : Flows) : Prop :=
  f_tfsaC g == s * f_tfsaC f /\ f_tfsaW g == s * f_tfsaW f /\
  f_nonrC g == s * f_nonrC f /\ f_nonrW g == s * f_nonrW f /\
  f_depleted g = f_depleted f.

(** What the row count depends on, at the top of a year: the scale of
    the year and, on that scale, the tolerance, the fixed withdrawal,
    the expense and the two opening balances of the year; and the two
    flags. *)
Record Core : Type := {
  c_scale : Q;
  c_eps : Q;
  c_rrspW : Q;
  c_expense : Q;
  c_tfsaInit : Q;
  c_nonrInit : Q;
  c_depleted : bool;
  c_cleared : bool
}.

(** The scale of the first year: the denominators of the withdrawal
    and of the tolerance. *)
Definition scaleOf (W : Q) : Q := inject_Z (Z.pos (Qden (Qred W) * Qden EPS)).

(** The factor the scale grows by each year: the least common multiple
    of the denominators of the three rates that multiply an amount from
    one year to the next. *)
Definition stepScale (p : Plan) : Q :=
  inject_Z (Z.pos (Z.to_pos
    (Z.lcm (Z.pos (Qden (Qred (inflationRate p))))
       (Z.lcm (Z.pos (Qden (Qred (tfsaRoi p))))
              (Z.pos (Qden (Qred (nonRegisteredRoi p)))))))).

Section CoreRun.

Variable p : Plan.
Variables (expensesBase : Q) (yearsToPlanLocal : nat) (W : Q).

(** The body of the loop in year [t], on the amounts of [c]; the
    result holds the amounts of year [t + 1] on the next scale. *)
Definition coreYear (t : nat) (c : Core) : Core :=
  let retired := (yearsToRetire p <=? t)%nat in
  let scale := c_scale c in
  let eps := c_eps c in
  let tfsaTarget := if c_cleared c then 0 else scale * tfsaContribute p in
  let f := if retired
           then postRetirementWith eps (c_expense c) (c_rrspW c) tfsaTarget
                                   (c_tfsaInit c) (c_nonrInit c) (c_depleted c)
           else preRetirementWith eps (scale * incomeAnnual p) (c_expense c)
                                  (scale * rrspContribute p) tfsaTarget
                                  (c_tfsaInit c) (c_nonrInit c) (c_depleted c) in
  let nonrEnd := floorWith eps (c_nonrInit c + f_nonrC f - f_nonrW f) in
  let tfsaEnd := floorWith eps (c_tfsaInit c + f_tfsaC f - f_tfsaW f) in
  let step := stepScale p in
  {| c_scale := Qred (scale * step);
     c_eps := Qred (eps * step);
     c_rrspW := Qred (c_rrspW c * step);
     c_expense := Qred (c_expense c * Qred (step * (1 + inflationRate p)));
     c_tfsaInit := Qred (tfsaEnd * Qred (step * (1 + tfsaRoi p)));
     c_nonrInit := Qred (nonrEnd * Qred (step * (1 + nonRegisteredRoi p)));
     c_depleted := f_depleted f;
     c_cleared := if Qeq_dec nonrEnd 0 then true else c_cleared c |}.

(** The number of rows the loop of [years] pushes. *)
Fixpoint coreYears (k t : nat) (c : Core) : nat :=
  match k with
  | O => O
  | S k' =>
      let c' := coreYear t c in
      if c_depleted c' && (t <? yearsToPlanLocal - 1)%nat
      then 1%nat
      else S (coreYears k' (S t) c')
  end.

Definition coreStart : Core :=
  let scale := scaleOf W in
  {| c_scale := scale;
     c_eps := Qred (scale * EPS);
     c_rrspW := Qred (scale * W);
     c_expense := Qred (scale * expensesBase);
     c_tfsaInit := Qred (scale * tfsaInitialBalance p);
     c_nonrInit := Qred (scale * nonRegisteredInitialBalance p);
     c_depleted := false; c_cleared := false |}.

Definition coreRows : nat := coreYears yearsToPlanLocal 0 coreStart.

(** The variables of the loop at the top of year [t], and their scaled
    counterparts. *)
Definition coreRel (t : nat) (v : Vars) (c : Core) : Prop :=
  0 < c_scale c /\
  c_eps c == c_scale c * EPS /\
  c_rrspW c == c_scale c * W /\
  c_expense c == c_scale c * (expensesBase * pow (1 + inflationRate p) t) /\
  c_tfsaInit c
  == c_scale c * (if (t =? 0)%nat then tfsaInitialBalance p
                  else tfsaEndPrev v * (1 + tfsaRoi p)) /\
  c_nonrInit c
  == c_scale c * (if (t =? 0)%nat then nonRegisteredInitialBalance p
                  else nonrEndPrev v * (1 + nonRegisteredRoi p)) /\
  c_depleted c = depletedEarly v /\ c_cleared c = nonrCleared v.

End CoreRun.

(** The horizon iteration, counting rows with [coreRows]. *)
Fixpoint fixedPointCore (p : Plan) (iter N : nat) : option (nat * Q) * nat :=
  match iter with
  | O => (None, N)
  | S iter' =>
      let yearsSurvived :=
        coreRows p (expensesAnnual p) N (solveRrspWForHorizon p N) in
      if (yearsSurvived =? N)%nat
      then (Some (N, solveRrspWForHorizon p N), N)
      else if (yearsSurvived <=? 0)%nat
           then (Some (0%nat, 0), yearsSurvived)
           else fixedPointCore p iter' yearsSurvived
  end.

(** ** The helpers, character by character *)

(** A JavaScript string, as its UTF-16 code units. *)
Definition JsString : Type := list N.

(** A value of the request body as the helpers see it: [null],
    [undefined], or any other value, given by the string that
    [String(v)] makes of it. *)
Inductive JsField : Type :=
| JsNull
| JsUndefined
| JsOther (s : JsString).

(** [String(v)]: the texts [null] and [undefined], or the string of
    the value. *)
Definition stringOf (v : JsField) : JsString :=
  match v with
  | JsNull => [110; 117; 108; 108]%N
  | JsUndefined => [117; 110; 100; 101; 102; 105; 110; 101; 100]%N
  | JsOther s => s
  end.

(** [\d]: the digits [0] to [9]. *)
Definition isDigit (c : N) : bool := ((48 <=? c) && (c <=? 57))%N.

(** The characters the pattern [[^\d.-]] leaves in place: a digit,
    [.] (46) or [-] (45). *)
Definition kept (c : N) : bool := isDigit c || (c =? 46)%N || (c =? 45)%N.

(** [s.replace(/[^\d.-]/g, "")] *)
Definition clean (s : JsString) : JsString := filter kept s.

(** White space and line terminators, what [trim] and [parseInt]
    strip: TAB, LF, VT, FF, CR, SP, NBSP, U+1680, U+2000 to U+200A,
    U+2028, U+2029, U+202F, U+205F, U+3000 and U+FEFF. *)
Definition isWhiteSpace (c : N) : bool :=
  existsb (N.eqb c)
    [9; 10; 11; 12; 13; 32; 160; 5760; 8232; 8233; 8239; 8287; 12288; 65279]%N
  || ((8192 <=? c) && (c <=? 8202))%N.

Fixpoint trimStart (s : JsString) : JsString :=
  match s with
  | [] => []
  | c :: r => if isWhiteSpace c then trimStart r else s
  end.

(** [s.trim()] *)
Definition trim (s : JsString) : JsString :=
  rev (trimStart (rev (trimStart s))).

(** The longest run of digits a string starts with, and what follows. *)
Fixpoint spanDigits (s : JsString) : JsString * JsString :=
  match s with
  | [] => ([], [])
  | c :: r =>
      if isDigit c
      then let (ds, rest) := spanDigits r in (c :: ds, rest)
      else ([], s)
  end.

(** The number a run of digits writes in base ten, after [acc]. *)
Fixpoint digitsValue (acc : Z) (ds : JsString) : Z :=
  match ds with
  | [] => acc
  | d :: r => digitsValue (10 * acc + (Z.of_N d - 48)) r
  end.

(** The mathematical value of an unsigned string of digits and dots:
    digits, digits with a point and maybe more digits, or a point and
    digits; anything else is no literal ([None]). *)
Definition unsignedDecimal (s : JsString) : option Q :=
  let (ip, rest) := spanDigits s in
  match rest with
  | [] =>
      match ip with
      | [] => None
      | _ => Some (inject_Z (digitsValue 0 ip))
      end
  | c :: rest' =>
      if (c =? 46)%N then
        let (fp, rest'') := spanDigits rest' in
        match rest'' with
        | [] =>
            match ip, fp with
            | [], [] => None
            | _, _ =>
                Some (inject_Z (digitsValue 0 ip)
                      + inject_Z (digitsValue 0 fp) / pow 10 (length fp))
            end
        | _ => None
        end
      else None
  end.

(** The mathematical value [Number] reads in a string of digits, dots
    and minus signs: the empty string is 0, one leading [-] negates,
    and what is not a decimal literal has none ([None]). *)
Definition valueOfCleaned (s : JsString) : option Q :=
  match s with
  | [] => Some 0
  | c :: r =>
      if (c =? 45)%N then option_map Qopp (unsignedDecimal r)
      else unsignedDecimal s
  end.

(** [Number(cleaned)]: the double nearest to that value, an infinity
    when it is too large, and [NaN] when there is none.  (Past the
    twentieth significant digit an engine may read zeros in place of
    the digits; the value is rounded as it stands here.) *)
Definition numberOfCleaned (s : JsString) : Double.double :=
  match valueOfCleaned s with
  | Some q => Double.ofQ q
  | None => S754_nan
  end.

(** What [toNum] makes of a value before it returns: the tests on
    [null], [undefined] and the trimmed string, the cleaning, [Number]
    and [Number.isFinite]. *)
Definition rawOf (v : JsField) : RawField :=
  match v with
  | JsNull => Absent
  | JsUndefined => Absent
  | JsOther text =>
      let s := trim text in
      match s with
      | [] => Blank
      | _ =>
          let n := numberOfCleaned (clean s) in
          if Double.isFinite n then Numeric (Double.toQ n) else Unreadable
      end
  end.

(** [parseInt(s, 10)]: leading white space is skipped, one sign is
    read, then the longest run of digits, whose value is rounded to a
    double; no digit is [NaN].  (Past the twentieth significant digit
    an engine may read zeros in place of the digits; the value is
    rounded as it stands here.) *)
Definition parseInt10 (s : JsString) : Double.double :=
  let s1 := trimStart s in
  let negative := match s1 with
                  | c :: _ => (c =? 45)%N
                  | [] => false
                  end in
  let s2 := match s1 with
            | c :: r => if (c =? 45)%N || (c =? 43)%N then r else s1
            | [] => s1
            end in
  match fst (spanDigits s2) with
  | [] => S754_nan
  | ds =>
      Double.ofZ (if negative then (- digitsValue 0 ds)%Z else digitsValue 0 ds)
  end.

(** [parseInt(v, 10)] as [toInt] takes it: the integer of a finite
    result, and [None] for [NaN] and the infinities, which
    [Number.isFinite] refuses. *)
Definition intOf (v : JsField) : option Z :=
  Double.toInteger (parseInt10 (stringOf v)).

(** ** The worksheet *)

(** One data row of the worksheet, columns A to O.  A cell the handler
    sets to [null] is [None]. *)
Record SheetRow : Type := {
  cellA : Z;
  cellB : Q; cellC : Q; cellD : Q; cellE : Q;
  cellF : option Q; cellG : option Q; cellH : option Q; cellI : option Q;
  cellJ : Q; cellK : Q; cellL : Q; cellM : Q;
  cellN : Q; cellO : Q
}.

(** [row.tfsaInit <= 0 && row.tfsaC <= 0] *)
Definition tfsaBlockEmpty (row : Row) : bool :=
  Qle_bool (tfsaInit row) 0 && Qle_bool (tfsaC row) 0.

(** The callback of [rows.forEach]: from the flag [tfsaCleared] as the
    callback finds it and the row, the cells it writes and the flag as
    it leaves it. *)
Definition writeRow (tfsaCleared : bool) (row : Row) : SheetRow * bool :=
  let tfsaCleared :=
    if negb tfsaCleared && tfsaBlockEmpty row then true else tfsaCleared in
  ({| cellA := age row;
      cellB := rrspInit row; cellC := rrspC row;
      cellD := rrspW row; cellE := rrspEnd row;
      cellF := if tfsaCleared then None else Some (tfsaInit row);
      cellG := if tfsaCleared then None else Some (tfsaC row);
      cellH := if tfsaCleared then None else Some (tfsaW row);
      cellI := if tfsaCleared then None else Some (tfsaEnd row);
      cellJ := nonrInit row; cellK := nonrC row;
      cellL := nonrW row; cellM := nonrEnd row;
      cellN := income row; cellO := expense row |},
   tfsaCleared).

(** [rows.forEach((row, i) => ...)]: the data rows, the one of
    [rows[i]] on line [3 + i] of the sheet. *)
Fixpoint writeRows (tfsaCleared : bool) (rows : list Row) : list SheetRow :=
  match rows with
  | [] => []
  | row :: rest =>
      let (cells, cleared) := writeRow tfsaCleared row in
      cells :: writeRows cleared rest
  end.

(** [let tfsaCleared = false; rows.forEach(...)] *)
Definition dataRows (rows : list Row) : list SheetRow := writeRows false rows.

(** The strings the handler compares [mode] with: ["findMaxYears"] and
    ["solveExpenses"]. *)
Definition text_findMaxYears : JsString :=
  [102; 105; 110; 100; 77; 97; 120; 89; 101; 97; 114; 115]%N.

Definition text_solveExpenses : JsString :=
  [115; 111; 108; 118; 101; 69; 120; 112; 101; 110; 115; 101; 115]%N.

(** [a === b] for two strings. *)
Fixpoint sameString (a b : JsString) : bool :=
  match a, b with
  | [], [] => true
  | x :: a', y :: b' => (x =? y)%N && sameString a' b'
  | _, _ => false
  end.

(** The path a mode takes through the handler.  The handler tests
    [mode === "findMaxYears"] and [mode === "solveExpenses"] and
    nothing else: every other string, ["standard"] or not, takes the
    path of [standard]. *)
Definition pathOf (mode : JsString) : Mode :=
  if sameString mode text_findMaxYears then findMaxYears
  else if sameString mode text_solveExpenses then solveExpenses
  else standard.

(** The cells beside the table: [R1], [R2] (the mode as it came) and
    [R3]. *)
Record Workbook : Type := {
  sheetData : list SheetRow;
  cellR1 : Q;
  cellR2 : JsString;
  cellR3 : option nat
}.

(** [rrspWithdrawFixedFinal] when the final simulation runs. *)
Definition rrspWithdrawFixedFinal (p : Plan) (mode : Mode) : Q :=
  match mode with
  | findMaxYears => snd (findMaxYearsResult p)
  | _ => solveRrspWForHorizon p (yearsToPlanOfInput p)
  end.

(** The workbook the handler sends, or [None] when it answers with
    status 500.  [mode] is the variable that
    [const { mode = "standard", ... } = req.body || {}] binds, for a
    body whose [mode] is a string or is missing: that string, or
    ["standard"].  (A [mode] of another JSON type fails both tests of
    [pathOf] as an unknown string does; what the workbook shows for it
    in [R2] is outside this model.)  [R3] is written in mode
    ["findMaxYears"]; the statement that writes it in mode
    ["solveExpenses"] is never reached. *)
Definition generateExcel (p : Plan) (mode : JsString) : option Workbook :=
  match finalProjection p (pathOf mode) with
  | None => None
  | Some proj =>
      Some {| sheetData := dataRows (rows proj);
              cellR1 := rrspWithdrawFixedFinal p (pathOf mode);
              cellR2 := mode;
              cellR3 := match pathOf mode with
                        | findMaxYears => Some (length (rows proj))
                        | _ => None
                        end |}
  end.

(** The horizon the final simulation is asked for. *)
Definition yearsToPlanFinal (p : Plan) (mode : Mode) : nat :=
  match mode with
  | findMaxYears => fst (findMaxYearsResult p)
  | _ => yearsToPlanOfInput p
  end.

(** ** What a year leaves uncovered *)


(** ** Plans used as examples *)

(** One working year that empties the taxable account, then one
    retirement year in which the fixed withdrawal exceeds the expense. *)
Definition reopenPlan : Plan := {|
  currentAge := 64; yearsToRetire := 1; yearsToPlanInput := 2;
  incomeAnnual := 60; expensesAnnual := 100; inflationRate := 0;
  rrspInitialBalance := 1000; rrspContribute := 0; rrspRoi := 0;
  tfsaInitialBalance := 0; tfsaContribute := 0; tfsaRoi := 0;
  nonRegisteredInitialBalance := 40; nonRegisteredRoi := 0
|}.

(** The final simulation of [reopenPlan] in mode [standard]. *)
Definition reopenRun : ProjectionResult :=
  runProjection reopenPlan (expensesAnnual reopenPlan) 2
    (solveRrspWForHorizon reopenPlan 2).





(** A plan whose one input is a taxable balance of half of [EPS],
    returning 100% a year. *)
Definition dustTaxablePlan : Plan := {|
  currentAge := 40; yearsToRetire := 0; yearsToPlanInput := 32;
  incomeAnnual := 0; expensesAnnual := 0; inflationRate := 0;
  rrspInitialBalance := 0; rrspContribute := 0; rrspRoi := 0;
  tfsaInitialBalance := 0; tfsaContribute := 0; tfsaRoi := 0;
  nonRegisteredInitialBalance := 1 # 2000000000; nonRegisteredRoi := 1
|}.

Definition dustTaxableRun : ProjectionResult :=
  runProjection dustTaxablePlan (expensesAnnual dustTaxablePlan) 32
    (solveRrspWForHorizon dustTaxablePlan 32).

(** A taxable balance of 100 returning 10% a year, nothing else: three
    years without any flow. *)
Definition idlePlan : Plan := {|
  currentAge := 40; yearsToRetire := 0; yearsToPlanInput := 3;
  incomeAnnual := 0; expensesAnnual := 0; inflationRate := 0;
  rrspInitialBalance := 0; rrspContribute := 0; rrspRoi := 0;
  tfsaInitialBalance := 0; tfsaContribute := 0; tfsaRoi := 0;
  nonRegisteredInitialBalance := 100; nonRegisteredRoi := 1 # 10
|}.

(** Retired at once, a tax-deferred balance of 150 over one year (so
    the fixed withdrawal is 150), an expense of 100 and a tax-free
    contribution of 20. *)
Definition surplusPlan : Plan := {|
  currentAge := 65; yearsToRetire := 0; yearsToPlanInput := 1;
  incomeAnnual := 0; expensesAnnual := 100; inflationRate := 0;
  rrspInitialBalance := 150; rrspContribute := 0; rrspRoi := 0;
  tfsaInitialBalance := 0; tfsaContribute := 20; tfsaRoi := 0;
  nonRegisteredInitialBalance := 0; nonRegisteredRoi := 0
|}.

Definition surplusRun : ProjectionResult :=
  runProjection surplusPlan (expensesAnnual surplusPlan) 1
    (solveRrspWForHorizon surplusPlan 1).

(** A plan whose tax-deferred account starts overdrawn. *)
Definition overdrawnRrspPlan : Plan := {|
  currentAge := 65; yearsToRetire := 0; yearsToPlanInput := 1;
  incomeAnnual := 0; expensesAnnual := 0; inflationRate := 0;
  rrspInitialBalance := -100; rrspContribute := 0; rrspRoi := 0;
  tfsaInitialBalance := 0; tfsaContribute := 0; tfsaRoi := 0;
  nonRegisteredInitialBalance := 0; nonRegisteredRoi := 0
|}.

Definition overdrawnRrspRun : ProjectionResult :=
  runProjection overdrawnRrspPlan (expensesAnnual overdrawnRrspPlan) 1
    (solveRrspWForHorizon overdrawnRrspPlan 1).

(** Retired at once over one year, a taxable balance of 1000.60 and
    nothing else: the largest expense that does not deplete is
    1000.60 + 1e-9. *)
Definition roundingPlan : Plan := {|
  currentAge := 65; yearsToRetire := 0; yearsToPlanInput := 1;
  incomeAnnual := 0; expensesAnnual := 0; inflationRate := 0;
  rrspInitialBalance := 0; rrspContribute := 0; rrspRoi := 0;
  tfsaInitialBalance := 0; tfsaContribute := 0; tfsaRoi := 0;
  nonRegisteredInitialBalance := 5003 # 5; nonRegisteredRoi := 0
|}.

(** One working year with an income of ten billion: no expense up to
    the cap of the bracket depletes. *)
Definition richPlan : Plan := {|
  currentAge := 30; yearsToRetire := 1; yearsToPlanInput := 1;
  incomeAnnual := 10000000000; expensesAnnual := 0; inflationRate := 0;
  rrspInitialBalance := 0; rrspContribute := 0; rrspRoi := 0;
  tfsaInitialBalance := 0; tfsaContribute := 0; tfsaRoi := 0;
  nonRegisteredInitialBalance := 0; nonRegisteredRoi := 0
|}.

(** Retired at once, a taxable balance of 1000 and a yearly expense of
    100: the taxable account pays for ten years and year 10 depletes. *)
Definition tenYearPlan : Plan := {|
  currentAge := 65; yearsToRetire := 0; yearsToPlanInput := 0;
  incomeAnnual := 0; expensesAnnual := 100; inflationRate := 0;
  rrspInitialBalance := 0; rrspContribute := 0; rrspRoi := 0;
  tfsaInitialBalance := 0; tfsaContribute := 0; tfsaRoi := 0;
  nonRegisteredInitialBalance := 1000; nonRegisteredRoi := 0
|}.

(** Retired at once on a tax-deferred balance of 197540 that returns
    3.125%, with an expense of 230 that grows 6.4453125% a year, a
    tax-free balance of 231 with a contribution target of 5910 and no
    return, and a taxable balance of 4 that returns 3.90625%.  Every
    shorter horizon raises the fixed withdrawal a little, which keeps
    the taxable account open a year longer, sends one more contribution
    to the tax-free account, where it earns nothing, and brings the
    depletion year forward. *)
Definition driftPlan : Plan := {|
  currentAge := 65; yearsToRetire := 0; yearsToPlanInput := 0;
  incomeAnnual := 0; expensesAnnual := 230; inflationRate := 33 # 512;
  rrspInitialBalance := 197540; rrspContribute := 0; rrspRoi := 1 # 32;
  tfsaInitialBalance := 231; tfsaContribute := 5910; tfsaRoi := 0;
  nonRegisteredInitialBalance := 4; nonRegisteredRoi := 5 # 128
|}.


(** The first row of [reopenRun], and the data row the sheet shows for it. *)
Definition reopenRow0 : Row :=
  rowAt reopenPlan (expensesAnnual reopenPlan) (solveRrspWForHorizon reopenPlan 2) 0.

Definition reopenCells0 : SheetRow := fst (writeRow false reopenRow0).

(** The workbook of [reopenPlan] in a mode that takes the path of
    [standard]. *)
Definition reopenWorkbook (mode : JsString) : Workbook :=
  {| sheetData := dataRows (rows reopenRun);
     cellR1 := solveRrspWForHorizon reopenPlan 2;
     cellR2 := mode;
     cellR3 := None |}.

(** * Properties *)

(** ** The loop as a prefix of the year-by-year trajectory *)

Lemma years_S (p : Plan) (expensesBase : Q) (yearsToPlanLocal : nat)
    (rrspWithdrawFixedUsed : Q) (k t : nat) (v : Vars) :
  years p expensesBase yearsToPlanLocal rrspWithdrawFixedUsed (S k) t v =
  if depletedEarly (snd (year p expensesBase rrspWithdrawFixedUsed t v)) && (t <? yearsToPlanLocal - 1)%nat
  then ([fst (year p expensesBase rrspWithdrawFixedUsed t v)], snd (year p expensesBase rrspWithdrawFixedUsed t v))
  else (fst (year p expensesBase rrspWithdrawFixedUsed t v) :: fst (years p expensesBase yearsToPlanLocal rrspWithdrawFixedUsed k (S t)
               (snd (year p expensesBase rrspWithdrawFixedUsed t v))),
        snd (years p expensesBase yearsToPlanLocal rrspWithdrawFixedUsed k (S t)
               (snd (year p expensesBase rrspWithdrawFixedUsed t v)))).
Proof.
  cbn [years]. destruct (year p expensesBase rrspWithdrawFixedUsed t v) as [row v']. cbn [fst snd].
  destruct (depletedEarly v' && (t <? yearsToPlanLocal - 1)%nat);
    [reflexivity|]. destruct (years p expensesBase yearsToPlanLocal rrspWithdrawFixedUsed k (S t) v'); reflexivity.
Qed.

Section TrajectoryFacts.

Variable p : Plan.
Variables (expensesBase : Q) (rrspWithdrawFixedUsed : Q).

Local Abbreviation yearOf := (year p expensesBase rrspWithdrawFixedUsed).
Local Abbreviation varsBefore := (varsBefore p expensesBase rrspWithdrawFixedUsed).
Local Abbreviation rowAt := (rowAt p expensesBase rrspWithdrawFixedUsed).

Lemma years_prefix (N : nat) :
  forall k t rs v,
    years p expensesBase N rrspWithdrawFixedUsed k t (varsBefore t) = (rs, v) ->
    rs = map rowAt (seq t (length rs)) /\ v = varsBefore (t + length rs).
Proof.
  induction k as [|k IH]; intros t rs v H.
  - injection H as <- <-. cbn [length seq map]. rewrite Nat.add_0_r.
    split; reflexivity.
  - rewrite years_S in H. fold (rowAt t) in H.
    change (snd (yearOf t (varsBefore t))) with (varsBefore (S t)) in H.
    destruct (years p expensesBase N rrspWithdrawFixedUsed k (S t)
                (varsBefore (S t))) as [rs1 v2] eqn:Ek.
    cbn [fst snd] in H.
    destruct (depletedEarly (varsBefore (S t)) && (t <? N - 1)%nat).
    + injection H as <- <-. cbn [length seq map]. rewrite Nat.add_1_r.
      split; reflexivity.
    + injection H as <- <-.
      destruct (IH _ _ _ Ek) as [IH1 IH2]. cbn [length seq map]. split.
      * f_equal. exact IH1.
      * rewrite IH2. f_equal. lia.
Qed.

(** How many turns the loop makes. *)
Lemma years_length (N : nat) :
  forall k t rs v,
    (t + k = N)%nat ->
    years p expensesBase N rrspWithdrawFixedUsed k t (varsBefore t) = (rs, v) ->
    (length rs <= k)%nat /\
    (1 <= k -> 1 <= length rs)%nat /\
    (length rs < k -> depletedEarly (varsBefore (t + length rs)) = true)%nat /\
    (forall j, t < j < t + length rs -> depletedEarly (varsBefore j) = false)%nat.
Proof.
  induction k as [|k IH]; intros t rs v Htk H.
  - injection H as <- <-. cbn [length]. repeat split; intros; lia.
  - rewrite years_S in H. fold (rowAt t) in H.
    change (snd (yearOf t (varsBefore t))) with (varsBefore (S t)) in H.
    destruct (years p expensesBase N rrspWithdrawFixedUsed k (S t)
                (varsBefore (S t))) as [rs1 v2] eqn:Ek.
    cbn [fst snd] in H.
    destruct (depletedEarly (varsBefore (S t))) eqn:Ed; cbn [andb] in H.
    + destruct (t <? N - 1)%nat eqn:Elt.
      * injection H as <- <-. cbn [length].
        repeat split; intros; try lia.
        rewrite Nat.add_1_r. exact Ed.
      * apply Nat.ltb_ge in Elt. assert (k = 0)%nat by lia. subst k.
        injection Ek as <- <-. injection H as <- <-. cbn [length].
        repeat split; intros; lia.
    + injection H as <- <-.
      destruct (IH (S t) _ _ ltac:(lia) Ek) as (L1 & L2 & L3 & L4).
      cbn [length].
      repeat split; intros; try lia.
      * replace (t + S (length rs1))%nat with (S t + length rs1)%nat by lia.
        apply L3. lia.
      * destruct (Nat.eq_dec j (S t)) as [->|Hne].
        -- exact Ed.
        -- apply L4. lia.
Qed.

End TrajectoryFacts.

Section RunProjection.

Variable p : Plan.
Variables (expensesBase : Q) (rrspWithdrawFixedUsed : Q).

Local Abbreviation run := (fun N => runProjection p expensesBase N rrspWithdrawFixedUsed).
Local Abbreviation before := (varsBefore p expensesBase rrspWithdrawFixedUsed).
Local Abbreviation row := (rowAt p expensesBase rrspWithdrawFixedUsed).

Lemma runProjection_unfold (N : nat) :
  rows (run N) =
    fst (years p expensesBase N rrspWithdrawFixedUsed N 0 (startVars p)) /\
  depleted (run N) =
    depletedEarly (snd (years p expensesBase N rrspWithdrawFixedUsed N 0 (startVars p))).
Proof.
  unfold runProjection.
  destruct (years p expensesBase N rrspWithdrawFixedUsed N 0 (startVars p)).
  split; reflexivity.
Qed.

(** The rows are the rows of the years [0 .. length - 1], and the
    flag is the flag after the last of them. *)
Lemma runProjection_rows (N : nat) :
  rows (run N) = map row (seq 0 (length (rows (run N)))) /\
  depleted (run N) = depletedEarly (before (length (rows (run N)))).
Proof.
  destruct (runProjection_unfold N) as [-> ->].
  destruct (years p expensesBase N rrspWithdrawFixedUsed N 0 (startVars p))
    as [rs v] eqn:E.
  destruct (years_prefix p expensesBase rrspWithdrawFixedUsed N N 0 rs v E)
    as [H1 H2].
  cbn [fst snd]. split; [exact H1 | rewrite H2; reflexivity].
Qed.

Lemma runProjection_length (N : nat) :
  (length (rows (run N)) <= N)%nat /\
  (1 <= N -> 1 <= length (rows (run N)))%nat /\
  (length (rows (run N)) < N ->
     depletedEarly (before (length (rows (run N)))) = true)%nat /\
  (forall j, 0 < j < length (rows (run N)) ->
     depletedEarly (before j) = false)%nat.
Proof.
  destruct (runProjection_unfold N) as [-> _].
  destruct (years p expensesBase N rrspWithdrawFixedUsed N 0 (startVars p))
    as [rs v] eqn:E.
  exact (years_length p expensesBase rrspWithdrawFixedUsed N N 0 rs v eq_refl E).
Qed.

Lemma nth_error_rows (N i : nat) (r : Row) :
  nth_error (rows (run N)) i = Some r -> r = row i.
Proof.
  destruct (runProjection_rows N) as [E _]. rewrite E. intros H.
  destruct (Nat.lt_ge_cases i (length (rows (run N)))) as [Hi|Hi].
  - rewrite nth_error_map, nth_error_seq in H.
    apply Nat.ltb_lt in Hi. rewrite Hi in H. cbn [option_map Nat.add] in H.
    injection H as <-. reflexivity.
  - exfalso. assert (nth_error (map row (seq 0 (length (rows (run N))))) i = None).
    { apply nth_error_None. rewrite length_map, length_seq. exact Hi. }
    congruence.
Qed.

(** A horizon over which no year sets the flag runs to its end. *)
Lemma years_no_break (M : nat) :
  forall k t,
    (forall j, t < j <= t + k -> depletedEarly (before j) = false)%nat ->
    years p expensesBase M rrspWithdrawFixedUsed k t (before t)
    = (map row (seq t k), before (t + k)).
Proof.
  induction k as [|k IH]; intros t H.
  - cbn [years seq map]. rewrite Nat.add_0_r. reflexivity.
  - rewrite years_S.
    change (snd (year p expensesBase rrspWithdrawFixedUsed t (before t)))
      with (before (S t)).
    rewrite (H (S t)) by lia. cbn [andb].
    rewrite IH by (intros; apply H; lia).
    cbn [fst snd seq map]. do 2 f_equal. lia.
Qed.

End RunProjection.

(** ** Rate normalisation *)

(** C8, as stated, fails: a raw rate of 150 is above 1, is divided by
    100 and becomes 3/2, which is not a fraction in [0, 1]. *)
Lemma normalizeRate_above_one :
  normalizeRate (Numeric 150) == 3 # 2 /\
  ~ (0 <= normalizeRate (Numeric 150) <= 1).
Proof.
  split.
  - reflexivity.
  - intros [_ H]. vm_compute in H. apply H. reflexivity.
Qed.

(** C8, amended: a value above 1 is divided by 100 and any other value
    is kept; the result is a fraction in [0, 1] when the value read is
    between 0 and 100. *)
Theorem normalizeRate_spec (x : RawField) :
  (1 < toNum x -> normalizeRate x == toNum x / 100) /\
  (toNum x <= 1 -> normalizeRate x = toNum x) /\
  (0 <= toNum x <= 100 -> 0 <= normalizeRate x <= 1).
Proof.
  unfold normalizeRate. cbv zeta.
  destruct (Qlt_le_dec 1 (toNum x)) as [H|H].
  - split; [reflexivity|]. split; [intros; lra|]. intros [H0 H1]. split.
    + apply Qle_shift_div_l; lra.
    + apply Qle_shift_div_r; lra.
  - split; [intros; lra|]. split; [reflexivity|]. intros; lra.
Qed.

Lemma normalizeRate_spec_witness :
  0 <= toNum (Numeric 5) <= 100 /\ 0 <= normalizeRate (Numeric 5) <= 1.
Proof.
  assert (H : 0 <= toNum (Numeric 5) <= 100) by (simpl; lra).
  split; [exact H|].
  exact (proj2 (proj2 (normalizeRate_spec (Numeric 5))) H).
Defined.

(** ** Row count and the depletion flag *)

(** C10: a horizon of at least one year gives at least one row; an
    unset flag means a full-length sequence; a short sequence means the
    flag is set; and the year that set the flag is the last row: the
    same simulation over one year less returns the earlier rows with
    the flag unset. *)
Theorem runProjection_row_count
    (p : Plan) (expensesBase : Q) (N : nat) (W : Q) :
  (1 <= N)%nat ->
  let r := runProjection p expensesBase N W in
  (1 <= length (rows r) <= N)%nat /\
  (depleted r = false -> length (rows r) = N) /\
  (length (rows r) < N -> depleted r = true)%nat /\
  (length (rows r) < N ->
   exists rs last,
     rows r = rs ++ [last] /\
     age last = (currentAge p + Z.of_nat (length rs))%Z /\
     rows (runProjection p expensesBase (length rs) W) = rs /\
     depleted (runProjection p expensesBase (length rs) W) = false)%nat.
Proof.
  intros HN r. subst r.
  destruct (runProjection_length p expensesBase W N) as (L1 & L2 & L3 & L4).
  destruct (runProjection_rows p expensesBase W N) as [R1 R2].
  set (L := length (rows (runProjection p expensesBase N W))) in *.
  assert (Hshort : (L < N)%nat ->
                   depleted (runProjection p expensesBase N W) = true).
  { intros H. rewrite R2. apply L3. exact H. }
  repeat split.
  - apply L2. exact HN.
  - exact L1.
  - intros Hd. destruct (Nat.eq_dec L N) as [E|E]; [exact E|].
    rewrite Hshort in Hd by lia. discriminate.
  - exact Hshort.
  - intros Hlt. specialize (L2 HN).
    destruct L as [|L'] eqn:EL; [lia|].
    exists (map (rowAt p expensesBase W) (seq 0 L')), (rowAt p expensesBase W L').
    assert (Hlen : length (map (rowAt p expensesBase W) (seq 0 L')) = L')
      by (rewrite length_map, length_seq; reflexivity).
    assert (Hflags : forall j, (0 < j <= 0 + L')%nat ->
              depletedEarly (varsBefore p expensesBase W j) = false)
      by (intros j Hj; apply L4; lia).
    assert (Hrun : years p expensesBase L' W L' 0 (startVars p)
                   = (map (rowAt p expensesBase W) (seq 0 L'),
                      varsBefore p expensesBase W (0 + L')))
      by (exact (years_no_break p expensesBase W L' L' 0 Hflags)).
    rewrite Hlen. split; [|split; [|split]].
    + rewrite R1. rewrite seq_S, map_app. reflexivity.
    + reflexivity.
    + destruct (runProjection_unfold p expensesBase W L') as [-> _].
      rewrite Hrun. reflexivity.
    + destruct (runProjection_unfold p expensesBase W L') as [_ ->].
      rewrite Hrun. cbn [snd Nat.add].
      destruct L' as [|L'']; [reflexivity|]. apply L4. lia.
Qed.

(** ** One year *)

Lemma EPS_pos : 0 < EPS.
Proof. reflexivity. Qed.

Lemma floorEPS_cases (x : Q) :
  (x < EPS /\ floorEPS x = 0) \/ (EPS <= x /\ floorEPS x = x).
Proof.
  unfold floorEPS. destruct (Qlt_le_dec x EPS); [left | right]; split;
    (assumption || reflexivity).
Qed.







Section YearFacts.

Variable p : Plan.
Variables (expensesBase : Q) (W : Q).

Local Abbreviation before := (varsBefore p expensesBase W).
Local Abbreviation row := (rowAt p expensesBase W).


Lemma nth_error_rows_lt (N i : nat) (r : Row) :
  nth_error (rows (runProjection p expensesBase N W)) i = Some r ->
  (i < length (rows (runProjection p expensesBase N W)))%nat /\ r = row i.
Proof.
  intros H. split.
  - apply nth_error_Some. congruence.
  - exact (nth_error_rows p expensesBase W N i r H).
Qed.

(** Openings and closings of the row of year [t]. *)
Lemma row_openings (t : nat) :
  rrspInit (row (S t)) = rrspEnd (row t) * (1 + rrspRoi p) /\
  tfsaInit (row (S t)) = tfsaEnd (row t) * (1 + tfsaRoi p) /\
  nonrInit (row (S t)) = nonrEnd (row t) * (1 + nonRegisteredRoi p).
Proof. repeat split. Qed.

Lemma row_first :
  rrspInit (row 0) = rrspInitialBalance p /\
  tfsaInit (row 0) = tfsaInitialBalance p /\
  nonrInit (row 0) = nonRegisteredInitialBalance p.
Proof. repeat split. Qed.

Lemma row_closings (t : nat) :
  rrspEnd (row t) = rrspInit (row t) + rrspC (row t) - rrspW (row t) /\
  tfsaEnd (row t) = floorEPS (tfsaInit (row t) + tfsaC (row t) - tfsaW (row t)) /\
  nonrEnd (row t) = floorEPS (nonrInit (row t) + nonrC (row t) - nonrW (row t)).
Proof. repeat split. Qed.

Lemma row_flows (t : nat) :
  tfsaC (row t) = f_tfsaC (flowsAt p expensesBase W t) /\
  tfsaW (row t) = f_tfsaW (flowsAt p expensesBase W t) /\
  nonrC (row t) = f_nonrC (flowsAt p expensesBase W t) /\
  nonrW (row t) = f_nonrW (flowsAt p expensesBase W t) /\
  depletedEarly (before (S t)) = f_depleted (flowsAt p expensesBase W t).
Proof.
  unfold rowAt, flowsAt, year. cbn [varsBefore]. unfold year.
  destruct (yearsToRetire p <=? t)%nat; repeat split.
Qed.

Lemma cleared_next (t : nat) :
  nonrCleared (before (S t)) =
  if Qeq_dec (nonrEnd (row t)) 0 then true else nonrCleared (before t).
Proof. reflexivity. Qed.


Lemma cleared_iff (t : nat) :
  nonrCleared (before t) = true <->
  exists j, (j < t)%nat /\ nonrEnd (row j) == 0.
Proof.
  induction t as [|t IH].
  - split; [discriminate | intros (j & Hj & _); lia].
  - rewrite cleared_next.
    destruct (Qeq_dec (nonrEnd (row t)) 0) as [E|E].
    + split; [intros _; exists t; split; [lia | exact E] | reflexivity].
    + rewrite IH. split; intros (j & Hj & Hz).
      * exists j. split; [lia | exact Hz].
      * exists j. split; [|exact Hz].
        destruct (Nat.eq_dec j t) as [->|]; [contradiction | lia].
Qed.


End YearFacts.

(** ** The taxable account once it closed at zero *)




Lemma runProjection_row_count_witness :
  (1 <= length (rows reopenRun) <= 2)%nat.
Proof.
  exact (proj1 (runProjection_row_count reopenPlan (expensesAnnual reopenPlan) 2
                  (solveRrspWForHorizon reopenPlan 2) (le_S 1 1 (le_n 1)))).
Defined.

(** ** Closing balances *)

Section Closings.

Variable p : Plan.
Variables (expensesBase : Q) (W : Q).

Local Abbreviation before := (varsBefore p expensesBase W).
Local Abbreviation row := (rowAt p expensesBase W).



End Closings.







(** ** Opening balances and growth without flows *)

Lemma pow_0 (b : Q) : pow b 0 = 1.
Proof. reflexivity. Qed.

Lemma pow_S (b : Q) (t : nat) : pow b (S t) == pow b t * b.
Proof.
  unfold pow. rewrite Nat2Z.inj_succ. unfold Z.succ.
  rewrite Qpower_plus' by lia. reflexivity.
Qed.

Lemma pow_ge_1 (b : Q) (t : nat) : 1 <= b -> 1 <= pow b t.
Proof.
  intros Hb. induction t as [|t IH].
  - rewrite pow_0. lra.
  - rewrite pow_S. nra.
Qed.

Lemma floorEPS_keep (x y : Q) : x == y -> EPS <= y -> floorEPS x == y.
Proof.
  intros E H. destruct (floorEPS_cases x) as [[Hx ->]|[Hx ->]]; lra.
Qed.

Section Growth.

Variable p : Plan.
Variables (expensesBase : Q) (W : Q).

Local Abbreviation row := (rowAt p expensesBase W).

Lemma rrsp_growth (L : nat) :
  (forall i, (i < L)%nat -> rrspC (row i) == 0 /\ rrspW (row i) == 0) ->
  forall i, (i < L)%nat ->
    rrspEnd (row i) == rrspInitialBalance p * pow (1 + rrspRoi p) i.
Proof.
  intros Hflows. induction i as [|i IH]; intros Hi.
  - destruct (row_closings p expensesBase W 0) as (-> & _).
    destruct (Hflows 0%nat Hi) as [-> ->].
    destruct (row_first p expensesBase W) as (-> & _). rewrite pow_0. ring.
  - destruct (row_closings p expensesBase W (S i)) as (-> & _).
    destruct (Hflows (S i) Hi) as [-> ->].
    destruct (row_openings p expensesBase W i) as (-> & _).
    rewrite IH by lia. rewrite pow_S. ring.
Qed.

Lemma tfsa_growth (L : nat) :
  EPS <= tfsaInitialBalance p -> 0 <= tfsaRoi p ->
  (forall i, (i < L)%nat -> tfsaC (row i) == 0 /\ tfsaW (row i) == 0) ->
  forall i, (i < L)%nat ->
    tfsaEnd (row i) == tfsaInitialBalance p * pow (1 + tfsaRoi p) i.
Proof.
  intros H0 Hr Hflows.
  assert (Hbig : forall i, EPS <= tfsaInitialBalance p * pow (1 + tfsaRoi p) i).
  { intros i. pose proof (pow_ge_1 (1 + tfsaRoi p) i ltac:(lra)).
    pose proof EPS_pos. nra. }
  induction i as [|i IH]; intros Hi.
  - destruct (row_closings p expensesBase W 0) as (_ & -> & _).
    apply floorEPS_keep; [|apply Hbig].
    destruct (Hflows 0%nat Hi) as [-> ->].
    destruct (row_first p expensesBase W) as (_ & -> & _). rewrite pow_0. ring.
  - destruct (row_closings p expensesBase W (S i)) as (_ & -> & _).
    apply floorEPS_keep; [|apply Hbig].
    destruct (Hflows (S i) Hi) as [-> ->].
    destruct (row_openings p expensesBase W i) as (_ & -> & _).
    rewrite IH by lia. rewrite pow_S. ring.
Qed.

Lemma nonr_growth (L : nat) :
  EPS <= nonRegisteredInitialBalance p -> 0 <= nonRegisteredRoi p ->
  (forall i, (i < L)%nat -> nonrC (row i) == 0 /\ nonrW (row i) == 0) ->
  forall i, (i < L)%nat ->
    nonrEnd (row i)
    == nonRegisteredInitialBalance p * pow (1 + nonRegisteredRoi p) i.
Proof.
  intros H0 Hr Hflows.
  assert (Hbig : forall i, EPS <= nonRegisteredInitialBalance p
                                  * pow (1 + nonRegisteredRoi p) i).
  { intros i. pose proof (pow_ge_1 (1 + nonRegisteredRoi p) i ltac:(lra)).
    pose proof EPS_pos. nra. }
  induction i as [|i IH]; intros Hi.
  - destruct (row_closings p expensesBase W 0) as (_ & _ & ->).
    apply floorEPS_keep; [|apply Hbig].
    destruct (Hflows 0%nat Hi) as [-> ->].
    destruct (row_first p expensesBase W) as (_ & _ & ->). rewrite pow_0. ring.
  - destruct (row_closings p expensesBase W (S i)) as (_ & _ & ->).
    apply floorEPS_keep; [|apply Hbig].
    destruct (Hflows (S i) Hi) as [-> ->].
    destruct (row_openings p expensesBase W i) as (_ & _ & ->).
    rewrite IH by lia. rewrite pow_S. ring.
Qed.

End Growth.

Lemma rowAt_In (p : Plan) (expensesBase : Q) (N : nat) (W : Q) (i : nat) :
  (i < length (rows (runProjection p expensesBase N W)))%nat ->
  In (rowAt p expensesBase W i) (rows (runProjection p expensesBase N W)).
Proof.
  intros Hi. destruct (runProjection_rows p expensesBase W N) as [E _].
  rewrite E. apply in_map. apply in_seq. lia.
Qed.

(** C4, as stated, fails in its consequence: in [dustTaxablePlan] the
    taxable account has no contribution and no withdrawal in any of the
    32 years, yet it closes year 31 at 0, more than one currency unit
    away from [initialBalance * (1 + rate)^31]; the floor emptied it in
    year 0. *)
Lemma growth_broken_by_floor :
  forallb (fun r => Qeq_bool (nonrC r) 0 && Qeq_bool (nonrW r) 0)
          (rows dustTaxableRun) = true /\
  exists r,
    nth_error (rows dustTaxableRun) 31 = Some r /\
    nonrEnd r == 0 /\
    1 < nonRegisteredInitialBalance dustTaxablePlan
        * pow (1 + nonRegisteredRoi dustTaxablePlan) 31.
Proof.
  split; [vm_compute; reflexivity|].
  eexists. split; [vm_compute; reflexivity|]. cbn [nonrEnd].
  split; [reflexivity | vm_compute; reflexivity].
Qed.

(** C4, amended: the first row opens each account at its initial
    balance; every later row opens it at the previous closing balance
    times one plus the account's rate; and when an account has no
    contribution and no withdrawal in any row, its closing balance in
    year [i] is [initialBalance * (1 + rate)^i] -- for the tax-deferred
    account always, for the other two when the initial balance is at
    least [EPS] and the rate is not negative. *)
Theorem openings_and_growth (p : Plan) (expensesBase : Q) (N : nat) (W : Q) :
  (forall r, nth_error (rows (runProjection p expensesBase N W)) 0 = Some r ->
     rrspInit r = rrspInitialBalance p /\
     tfsaInit r = tfsaInitialBalance p /\
     nonrInit r = nonRegisteredInitialBalance p) /\
  (forall i r r',
     nth_error (rows (runProjection p expensesBase N W)) i = Some r ->
     nth_error (rows (runProjection p expensesBase N W)) (S i) = Some r' ->
     rrspInit r' = rrspEnd r * (1 + rrspRoi p) /\
     tfsaInit r' = tfsaEnd r * (1 + tfsaRoi p) /\
     nonrInit r' = nonrEnd r * (1 + nonRegisteredRoi p)) /\
  ((forall r, In r (rows (runProjection p expensesBase N W)) ->
      rrspC r == 0 /\ rrspW r == 0) ->
   forall i r,
     nth_error (rows (runProjection p expensesBase N W)) i = Some r ->
     rrspEnd r == rrspInitialBalance p * pow (1 + rrspRoi p) i) /\
  (EPS <= tfsaInitialBalance p -> 0 <= tfsaRoi p ->
   (forall r, In r (rows (runProjection p expensesBase N W)) ->
      tfsaC r == 0 /\ tfsaW r == 0) ->
   forall i r,
     nth_error (rows (runProjection p expensesBase N W)) i = Some r ->
     tfsaEnd r == tfsaInitialBalance p * pow (1 + tfsaRoi p) i) /\
  (EPS <= nonRegisteredInitialBalance p -> 0 <= nonRegisteredRoi p ->
   (forall r, In r (rows (runProjection p expensesBase N W)) ->
      nonrC r == 0 /\ nonrW r == 0) ->
   forall i r,
     nth_error (rows (runProjection p expensesBase N W)) i = Some r ->
     nonrEnd r == nonRegisteredInitialBalance p * pow (1 + nonRegisteredRoi p) i).
Proof.
  split; [|split; [|split; [|split]]].
  - intros r H. apply nth_error_rows in H. subst r. apply row_first.
  - intros i r r' H H'. apply nth_error_rows in H. apply nth_error_rows in H'.
    subst r r'. apply row_openings.
  - intros Hflows i r H. apply nth_error_rows_lt in H. destruct H as [Hi ->].
    apply (rrsp_growth p expensesBase W
             (length (rows (runProjection p expensesBase N W)))); [|exact Hi].
    intros j Hj. apply Hflows. apply rowAt_In. exact Hj.
  - intros H0 Hr Hflows i r H. apply nth_error_rows_lt in H. destruct H as [Hi ->].
    apply (tfsa_growth p expensesBase W
             (length (rows (runProjection p expensesBase N W)))); try assumption.
    intros j Hj. apply Hflows. apply rowAt_In. exact Hj.
  - intros H0 Hr Hflows i r H. apply nth_error_rows_lt in H. destruct H as [Hi ->].
    apply (nonr_growth p expensesBase W
             (length (rows (runProjection p expensesBase N W)))); try assumption.
    intros j Hj. apply Hflows. apply rowAt_In. exact Hj.
Qed.

Lemma openings_and_growth_witness :
  nonrEnd (rowAt idlePlan 0 0 2) == 100 * pow (1 + (1 # 10)) 2.
Proof.
  apply (proj2 (proj2 (proj2 (proj2 (openings_and_growth idlePlan 0 3 0))))).
  - vm_compute. discriminate.
  - vm_compute. discriminate.
  - intros r Hr. vm_compute in Hr.
    destruct Hr as [<-|[<-|[<-|[]]]]; split; reflexivity.
  - vm_compute. reflexivity.
Defined.

(** ** The retirement ladder *)

(** C3, as stated, fails: the need the code works with includes the
    tax-free contribution.  In [surplusPlan] the withdrawal exceeds the
    expense by 50, but only 30 reach the taxable account; 20 are the
    tax-free contribution. *)
Lemma surplus_not_all_to_taxable :
  exists r,
    rows surplusRun = [r] /\
    income r == 0 /\ rrspW r - expense r == 50 /\
    nonrC r == 30 /\ tfsaC r == 20 /\
    ~ specRetirementYear r.
Proof.
  eexists. split; [vm_compute; reflexivity|].
  unfold specRetirementYear. cbn [income rrspW expense nonrC tfsaC nonrInit tfsaInit nonrW tfsaW].
  repeat (split; [reflexivity|]).
  intros (H & _). vm_compute in H. discriminate H.
Qed.

Lemma postRetirement_cases (expense W target tfsaInit nonrInit : Q) (d : bool) :
  let f := postRetirement expense W target tfsaInit nonrInit d in
  let need := expense + target - W in
  (need <= 0 ->
   f_nonrC f == - need /\ f_nonrW f == 0 /\ f_tfsaC f == target /\ f_tfsaW f == 0
   /\ f_depleted f = d) /\
  (0 < need -> need <= nonrInit + EPS ->
   f_nonrW f == need /\ f_nonrC f == 0 /\ f_tfsaC f == target /\ f_tfsaW f == 0
   /\ f_depleted f = d) /\
  (nonrInit + EPS < need -> 0 < need ->
   f_nonrW f == nonrInit /\ f_nonrC f == 0 /\
   (expense <= W + nonrInit + EPS ->
    f_tfsaC f == Qmin target (Qmax 0 (nonrInit + W - expense)) /\ f_tfsaW f == 0
    /\ f_depleted f = d) /\
   (W + nonrInit + EPS < expense ->
    f_tfsaC f == 0 /\ f_tfsaW f == Qmin tfsaInit (expense - W - nonrInit) /\
    (EPS < expense - W - nonrInit - f_tfsaW f -> f_depleted f = true) /\
    (expense - W - nonrInit - f_tfsaW f <= EPS -> f_depleted f = d))).
Proof.
  unfold postRetirement. cbv zeta.
  destruct (Qlt_le_dec 0 (expense + target - W)) as [H0|H0];
    [destruct (Qlt_le_dec (nonrInit + EPS) (expense + target - W)) as [H1|H1];
     [destruct (Qlt_le_dec (W + nonrInit + EPS) expense) as [H2|H2]|]|];
    cbn [f_tfsaC f_tfsaW f_nonrC f_nonrW f_depleted].
  - split; [intros; lra|]. split; [intros; lra|]. intros _ _.
    split; [reflexivity|]. split; [reflexivity|]. split; [intros; lra|]. intros _.
    split; [reflexivity|].
    assert (E : expense - (W + nonrInit) == expense - W - nonrInit) by ring.
    split; [rewrite E; reflexivity|].
    destruct (Qlt_le_dec EPS (expense - (W + nonrInit)
                              - Qmin tfsaInit (expense - (W + nonrInit)))) as [H3|H3].
    + split; [reflexivity|]. intros. lra.
    + split; [|reflexivity]. intros. lra.
  - split; [intros; lra|]. split; [intros; lra|]. intros _ _.
    split; [reflexivity|]. split; [reflexivity|]. split; [|intros; lra]. intros _.
    split; [reflexivity|]. split; reflexivity.
  - split; [intros; lra|]. split; [|intros; lra]. intros _ _.
    repeat (split; [reflexivity|]). reflexivity.
  - split; [|split; intros; lra]. intros _.
    repeat (split; [reflexivity|]). reflexivity.
Qed.

Section RetirementYear.

Variable p : Plan.
Variables (expensesBase : Q) (W : Q).

Local Abbreviation before := (varsBefore p expensesBase W).
Local Abbreviation row := (rowAt p expensesBase W).

Lemma row_retired (t : nat) :
  (yearsToRetire p <= t)%nat ->
  income (row t) = 0 /\ rrspW (row t) = W /\ rrspC (row t) = 0 /\
  flowsAt p expensesBase W t
  = postRetirement (expense (row t)) W (tfsaTargetAt p expensesBase W t)
      (tfsaInit (row t)) (nonrInit (row t)) (depletedEarly (before t)).
Proof.
  intros H. apply Nat.leb_le in H.
  unfold rowAt, flowsAt, tfsaTargetAt, year. cbv zeta. rewrite H.
  cbn [fst income rrspW rrspC expense tfsaInit nonrInit]. repeat split.
Qed.


Lemma tfsaTargetAt_cases (t : nat) :
  ((exists j, (j < t)%nat /\ nonrEnd (row j) == 0) ->
   tfsaTargetAt p expensesBase W t = 0) /\
  ((forall j, (j < t)%nat -> ~ nonrEnd (row j) == 0) ->
   tfsaTargetAt p expensesBase W t = tfsaContribute p).
Proof.
  unfold tfsaTargetAt. split.
  - intros H. apply cleared_iff in H. rewrite H. reflexivity.
  - intros H. destruct (nonrCleared (before t)) eqn:E; [|reflexivity].
    apply cleared_iff in E. destruct E as (j & Hj & Hz).
    exfalso. exact (H j Hj Hz).
Qed.

(** The flag is unset at the top of every year that produced a row. *)
Lemma flag_before_row (N i : nat) :
  (i < length (rows (runProjection p expensesBase N W)))%nat ->
  depletedEarly (before i) = false.
Proof.
  intros Hi. destruct i as [|i]; [reflexivity|].
  apply (runProjection_length p expensesBase W N). lia.
Qed.

(** The flag the run returns is set in the year of its last row or not
    at all. *)
Lemma flag_after_row (N i : nat) :
  (i < length (rows (runProjection p expensesBase N W)))%nat ->
  depletedEarly (before (S i)) = true <->
  (S i = length (rows (runProjection p expensesBase N W))
   /\ depleted (runProjection p expensesBase N W) = true).
Proof.
  intros Hi.
  destruct (runProjection_rows p expensesBase W N) as [_ Hd].
  destruct (runProjection_length p expensesBase W N) as (_ & _ & _ & L4).
  split.
  - intros H.
    destruct (Nat.eq_dec (S i) (length (rows (runProjection p expensesBase N W))))
      as [E|E].
    + split; [exact E|]. rewrite Hd, <- E. exact H.
    + rewrite L4 in H by lia. discriminate.
  - intros [E H]. rewrite Hd, <- E in H. exact H.
Qed.

End RetirementYear.

Lemma nth_error_rowAt (p : Plan) (expensesBase : Q) (N : nat) (W : Q) (j : nat) :
  (j < length (rows (runProjection p expensesBase N W)))%nat ->
  nth_error (rows (runProjection p expensesBase N W)) j
  = Some (rowAt p expensesBase W j).
Proof.
  intros Hj. destruct (runProjection_rows p expensesBase W N) as [E _].
  rewrite E at 1. rewrite nth_error_map, nth_error_seq.
  apply Nat.ltb_lt in Hj. rewrite Hj. reflexivity.
Qed.

(** C3, amended: in a retirement year the need is
    [expense + target - W], where [target] is the tax-free contribution,
    or 0 once an earlier year closed the taxable account at zero.
    A need of zero or less is the taxable contribution, with nothing
    withdrawn.  A need the taxable balance covers (up to [EPS]) is
    withdrawn from it.  Otherwise the taxable account gives its whole
    opening balance, the tax-free contribution is cut to what the
    withdrawal and that balance leave after the expense, and when they
    leave the expense uncovered by more than [EPS] the contribution is
    zero and the tax-free account withdraws up to its opening balance;
    the run returns the flag set, with this year as its last row,
    exactly when that still leaves more than [EPS] uncovered. *)
Theorem retirement_ladder
    (p : Plan) (expensesBase : Q) (N : nat) (W : Q) (i : nat) (r : Row) :
  nth_error (rows (runProjection p expensesBase N W)) i = Some r ->
  (yearsToRetire p <= i)%nat ->
  exists target,
    ((exists j rj, (j < i)%nat /\
        nth_error (rows (runProjection p expensesBase N W)) j = Some rj /\
        nonrEnd rj == 0) -> target = 0) /\
    ((forall j rj, (j < i)%nat ->
        nth_error (rows (runProjection p expensesBase N W)) j = Some rj ->
        ~ nonrEnd rj == 0) -> target = tfsaContribute p) /\
    income r = 0 /\ rrspW r = W /\
    (expense r + target - W <= 0 ->
     nonrC r == - (expense r + target - W) /\ nonrW r == 0 /\
     tfsaC r == target /\ tfsaW r == 0) /\
    (0 < expense r + target - W -> expense r + target - W <= nonrInit r + EPS ->
     nonrW r == expense r + target - W /\ nonrC r == 0 /\
     tfsaC r == target /\ tfsaW r == 0) /\
    (nonrInit r + EPS < expense r + target - W -> 0 < expense r + target - W ->
     nonrW r == nonrInit r /\ nonrC r == 0 /\
     (expense r <= W + nonrInit r + EPS ->
      tfsaC r == Qmin target (Qmax 0 (nonrInit r + W - expense r)) /\
      tfsaW r == 0) /\
     (W + nonrInit r + EPS < expense r ->
      tfsaC r == 0 /\ tfsaW r == Qmin (tfsaInit r) (expense r - W - nonrInit r))) /\
    ((S i = length (rows (runProjection p expensesBase N W)) /\
      depleted (runProjection p expensesBase N W) = true) <->
     (nonrInit r + EPS < expense r + target - W /\ 0 < expense r + target - W /\
      W + nonrInit r + EPS < expense r /\
      EPS < expense r - W - nonrInit r - tfsaW r)).
Proof.
  intros Hr Hret. apply nth_error_rows_lt in Hr. destruct Hr as [Hi ->].
  exists (tfsaTargetAt p expensesBase W i).
  destruct (tfsaTargetAt_cases p expensesBase W i) as [T0 T1].
  destruct (row_retired p expensesBase W i Hret) as (Einc & EW & _ & Ef).
  destruct (row_flows p expensesBase W i) as (F1 & F2 & F3 & F4 & F5).
  pose proof (flag_before_row p expensesBase W N i Hi) as Hbefore.
  pose proof (flag_after_row p expensesBase W N i Hi) as Hafter.
  rewrite F5 in Hafter. rewrite F1, F2, F3, F4. rewrite Ef in *. rewrite Hbefore in *.
  set (r := rowAt p expensesBase W i) in *.
  set (target := tfsaTargetAt p expensesBase W i) in *.
  pose proof (postRetirement_cases (expense r) W target (tfsaInit r) (nonrInit r) false)
    as (C1 & C2 & C3).
  cbv zeta in C1, C2, C3.
  set (f := postRetirement (expense r) W target (tfsaInit r) (nonrInit r) false) in *.
  split; [|split; [|split; [|split; [|split; [|split; [|split]]]]]].
  - intros (j & rj & Hj & Hnth & Hz). apply T0. exists j. split; [exact Hj|].
    apply nth_error_rows in Hnth. subst rj. exact Hz.
  - intros H. apply T1. intros j Hj. apply (H j (rowAt p expensesBase W j) Hj).
    apply nth_error_rowAt. lia.
  - exact Einc.
  - exact EW.
  - intros H. destruct (C1 H) as (? & ? & ? & ? & _). auto.
  - intros H H'. destruct (C2 H H') as (? & ? & ? & ? & _). auto.
  - intros H H'. destruct (C3 H H') as (? & ? & C3a & C3b).
    split; [assumption|]. split; [assumption|]. split.
    + intros H2. destruct (C3a H2) as (? & ? & _). auto.
    + intros H2. destruct (C3b H2) as (? & ? & _). auto.
  - rewrite <- Hafter. split.
    + intros Hflag.
      destruct (Qlt_le_dec 0 (expense r + target - W)) as [H0|H0];
        [|destruct (C1 H0) as (_ & _ & _ & _ & E); congruence].
      destruct (Qlt_le_dec (nonrInit r + EPS) (expense r + target - W)) as [H1|H1];
        [|destruct (C2 H0 H1) as (_ & _ & _ & _ & E); congruence].
      destruct (C3 H1 H0) as (_ & _ & C3a & C3b).
      destruct (Qlt_le_dec (W + nonrInit r + EPS) (expense r)) as [H2|H2];
        [|destruct (C3a H2) as (_ & _ & E); congruence].
      destruct (C3b H2) as (_ & _ & _ & C3d).
      destruct (Qlt_le_dec EPS (expense r - W - nonrInit r - f_tfsaW f)) as [H3|H3];
        [|rewrite (C3d H3) in Hflag; discriminate].
      repeat split; assumption.
    + intros (H1 & H0 & H2 & H3).
      destruct (C3 H1 H0) as (_ & _ & _ & C3b).
      destruct (C3b H2) as (_ & _ & C3c & _). exact (C3c H3).
Qed.

Lemma retirement_ladder_witness :
  exists target,
    target = tfsaContribute surplusPlan /\
    nonrC (rowAt surplusPlan 100 150 0)
    == - (expense (rowAt surplusPlan 100 150 0) + target - 150).
Proof.
  destruct (retirement_ladder surplusPlan 100 1 150 0 (rowAt surplusPlan 100 150 0))
    as (target & _ & T & _ & _ & C & _).
  - vm_compute. reflexivity.
  - apply le_n.
  - assert (E : target = tfsaContribute surplusPlan).
    { apply T. intros j rj Hj. inversion Hj. }
    exists target. split; [exact E|].
    apply C. rewrite E. vm_compute. discriminate.
Defined.

(** ** The withdrawal solver *)

Section RrspTrack.

Variable p : Plan.
Variables (expensesBase : Q) (W : Q).

Local Abbreviation before := (varsBefore p expensesBase W).
Local Abbreviation row := (rowAt p expensesBase W).

Lemma rrspEnd_year (t : nat) :
  rrspEnd (row t)
  = rrsp_year (yearsToRetire p) (rrspInitialBalance p) (rrspContribute p)
      (rrspRoi p) W t (rrspEndPrev (before t)).
Proof.
  unfold rowAt, year, rrsp_year. cbv zeta. cbn [fst rrspEnd].
  rewrite Nat.ltb_antisym.
  destruct (yearsToRetire p <=? t)%nat; reflexivity.
Qed.

Lemma rrspEndPrev_next (t : nat) : rrspEndPrev (before (S t)) = rrspEnd (row t).
Proof. reflexivity. Qed.

(** The tax-deferred column of the projection is the loop of
    [simulate]. *)
Lemma simulate_from_track :
  forall k t,
    simulate_from (yearsToRetire p) (rrspInitialBalance p) (rrspContribute p)
      (rrspRoi p) W k t (rrspEndPrev (before t))
    = rrspEndPrev (before (t + k)).
Proof.
  induction k as [|k IH]; intros t; cbn [simulate_from].
  - rewrite Nat.add_0_r. reflexivity.
  - rewrite <- rrspEnd_year, <- rrspEndPrev_next, IH.
    replace (t + S k)%nat with (S t + k)%nat by lia. reflexivity.
Qed.

Lemma rrspEnd_simulate (t : nat) :
  rrspEnd (row t)
  = simulate (yearsToRetire p) (S t) (rrspInitialBalance p) (rrspContribute p)
      (rrspRoi p) W.
Proof.
  unfold simulate.
  change (rrspInitialBalance p) with (rrspEndPrev (before 0)) at 2.
  rewrite simulate_from_track. reflexivity.
Qed.

End RrspTrack.

(** C1, as stated, fails where no rounding is involved too, when the
    probe with [W = 0] ends below zero: in [overdrawnRrspPlan] the
    slope is 1, the root -100 is clamped to a withdrawal of 0, and the
    tax-deferred column of the projection closes the last year at
    -100. *)
Lemma clamped_withdrawal_misses_zero :
  0 < simulate 0 1 (-100) 0 0 0 - simulate 0 1 (-100) 0 0 1 /\
  solveRrspWForHorizon overdrawnRrspPlan 1 == 0 /\
  exists r,
    nth_error (rows overdrawnRrspRun) 0 = Some r /\
    rrspEnd r == -100 /\ ~ Qabs (rrspEnd r) <= EPS.
Proof.
  split; [reflexivity|]. split; [reflexivity|].
  eexists. split; [vm_compute; reflexivity|]. cbn [rrspEnd].
  split; [reflexivity|]. intros H. vm_compute in H. apply H. reflexivity.
Qed.

(** *** Rounding and signs *)





















(** ** The bisection of mode [solveExpenses] *)

Section Bisection.

Variable p : Plan.
Variable yearsToPlanLocal : nat.

Local Abbreviation depletes := (depletesAt p yearsToPlanLocal).

Lemma hiStart_ge : 1000 <= hiStart p.
Proof. unfold hiStart. apply Q.le_max_l. Qed.

(** The doubling loop leaves by its own test, or has doubled [fuel]
    times. *)
Lemma expand_spec :
  forall fuel hi,
    0 <= hi ->
    hi <= expand p yearsToPlanLocal fuel hi /\
    ((depletes (expand p yearsToPlanLocal fuel hi) = true \/
      1000000000 <= expand p yearsToPlanLocal fuel hi) \/
     expand p yearsToPlanLocal fuel hi == hi * pow 2 fuel).
Proof.
  induction fuel as [|fuel IH]; intros hi Hhi; cbn [expand].
  - split; [lra|]. right. rewrite pow_0. ring.
  - destruct (depletes hi) eqn:Ed; cbn [negb andb].
    + split; [lra|]. left. left. exact Ed.
    + destruct (Qlt_le_dec hi 1000000000) as [Hlt|Hge].
      * destruct (IH (hi * 2) ltac:(lra)) as [H1 [H2|H2]].
        -- split; [lra|]. left. exact H2.
        -- split; [lra|]. right. rewrite H2, pow_S. ring.
      * split; [lra|]. left. right. exact Hge.
Qed.

(** Twenty doublings are enough: the loop of the source leaves with the
    value [hiExpanded]. *)
Lemma expand_exits :
  1000 <= hiExpanded p yearsToPlanLocal /\
  (depletes (hiExpanded p yearsToPlanLocal) = true \/
   1000000000 <= hiExpanded p yearsToPlanLocal).
Proof.
  unfold hiExpanded. pose proof hiStart_ge as H.
  destruct (expand_spec 20 (hiStart p) ltac:(lra)) as [H1 [H2|H2]].
  - split; [lra | exact H2].
  - split; [lra|]. right. rewrite H2.
    assert (E : pow 2 20 == 1048576) by reflexivity. rewrite E. lra.
Qed.

Lemma bisect_spec :
  forall i lo hi,
    lo <= hi ->
    lo <= fst (bisect p yearsToPlanLocal i lo hi) /\
    fst (bisect p yearsToPlanLocal i lo hi) <= snd (bisect p yearsToPlanLocal i lo hi) /\
    snd (bisect p yearsToPlanLocal i lo hi) <= hi /\
    snd (bisect p yearsToPlanLocal i lo hi) - fst (bisect p yearsToPlanLocal i lo hi)
    == (hi - lo) * pow (1 # 2) i /\
    (fst (bisect p yearsToPlanLocal i lo hi) = lo \/
     depletes (fst (bisect p yearsToPlanLocal i lo hi)) = false) /\
    (snd (bisect p yearsToPlanLocal i lo hi) = hi \/
     depletes (snd (bisect p yearsToPlanLocal i lo hi)) = true).
Proof.
  induction i as [|i IH]; intros lo hi Hle; cbn [bisect].
  - cbn [fst snd]. rewrite pow_0.
    repeat (split; [lra || (left; reflexivity)|]). left. reflexivity.
  - assert (Em : (lo + hi) / 2 == (lo + hi) * (1 # 2)) by field.
    set (mid := (lo + hi) / 2) in *.
    assert (Hm1 : lo <= mid) by lra.
    assert (Hm2 : mid <= hi) by lra.
    destruct (depletes mid) eqn:Ed.
    + destruct (IH lo mid Hm1) as (I1 & I2 & I3 & I4 & I5 & I6).
      split; [exact I1|]. split; [exact I2|]. split; [lra|].
      split; [rewrite I4, pow_S, Em; ring|]. split; [exact I5|].
      destruct I6 as [E|E]; [right; rewrite E; exact Ed | right; exact E].
    + destruct (IH mid hi Hm2) as (I1 & I2 & I3 & I4 & I5 & I6).
      split; [lra|]. split; [exact I2|]. split; [exact I3|].
      split; [rewrite I4, pow_S, Em; ring|]. split; [|exact I6].
      destruct I5 as [E|E]; [right; rewrite E; exact Ed | right; exact E].
Qed.

End Bisection.

Lemma round_near (x : Q) :
  inject_Z (round x) - (1 # 2) <= x /\ x < inject_Z (round x) + (1 # 2).
Proof.
  unfold round.
  pose proof (Qfloor_le (x + (1 # 2))) as H1.
  pose proof (Qlt_floor (x + (1 # 2))) as H2.
  rewrite inject_Z_plus in H2. change (inject_Z 1) with 1 in H2.
  split; lra.
Qed.

(** C5, as stated, fails in its first half: rounding to the nearest
    integer can round up.  In [roundingPlan] the search converges to
    1000.60 and the solved expense is 1001, which depletes. *)
Lemma rounded_expense_depletes :
  solvedInitialExpense roundingPlan 1 = 1001%Z /\
  depletesAt roundingPlan 1 (inject_Z (solvedInitialExpense roundingPlan 1)) = true.
Proof. split; vm_compute; reflexivity. Qed.

(** It fails in its second half too, when the bracket stops at its cap
    without having depleted: in [richPlan] the solved expense is
    1048576000 and one unit more does not deplete either. *)
Lemma capped_bracket_never_depletes :
  solvedInitialExpense richPlan 1 = 1048576000%Z /\
  depletesAt richPlan 1 (inject_Z (solvedInitialExpense richPlan 1 + 1)) = false.
Proof. split; vm_compute; reflexivity. Qed.

(** C5, amended: the doubling loop ends with [hi >= 1000] that either
    depletes or has reached 1e9; after the 50 halvings
    [0 <= lo <= hi], the bracket is [2^-50] times as wide as it was,
    [lo] is still 0 or an expense that does not deplete, [hi] is still
    the starting value or an expense that depletes, and the solved
    expense is within one half of [lo]. *)
Theorem expense_bisection (p : Plan) (yearsToPlanLocal : nat) :
  let hi0 := hiExpanded p yearsToPlanLocal in
  let lo := fst (bisect p yearsToPlanLocal 50 0 hi0) in
  let hi := snd (bisect p yearsToPlanLocal 50 0 hi0) in
  1000 <= hi0 /\
  (depletesAt p yearsToPlanLocal hi0 = true \/ 1000000000 <= hi0) /\
  0 <= lo /\ lo <= hi /\ hi <= hi0 /\
  hi - lo == hi0 * pow (1 # 2) 50 /\
  (lo = 0 \/ depletesAt p yearsToPlanLocal lo = false) /\
  (hi = hi0 \/ depletesAt p yearsToPlanLocal hi = true) /\
  inject_Z (solvedInitialExpense p yearsToPlanLocal) - (1 # 2) <= lo /\
  lo < inject_Z (solvedInitialExpense p yearsToPlanLocal) + (1 # 2).
Proof.
  intros hi0 lo hi.
  destruct (expand_exits p yearsToPlanLocal) as [H0 H1].
  destruct (bisect_spec p yearsToPlanLocal 50 0 hi0 ltac:(fold hi0 in H0; lra))
    as (B1 & B2 & B3 & B4 & B5 & B6).
  fold lo in B1, B2, B4, B5. fold hi in B2, B3, B4, B6.
  split; [exact H0|]. split; [exact H1|]. split; [exact B1|].
  split; [exact B2|]. split; [exact B3|].
  split; [rewrite B4; ring|]. split; [exact B5|]. split; [exact B6|].
  exact (round_near lo).
Qed.

(** ** The horizon iteration of mode [findMaxYears] *)

Lemma fixedPoint_spec (p : Plan) :
  forall iter N,
    (1 <= N)%nat ->
    match fixedPoint p iter N with
    | (Some (M, W), _) =>
        (1 <= M <= N)%nat /\ W = solveRrspWForHorizon p M /\
        length (rows (runProjection p (expensesAnnual p) M W)) = M
    | (None, M) => (1 <= M)%nat /\ (M + iter <= N)%nat
    end.
Proof.
  induction iter as [|iter IH]; intros N HN; cbn [fixedPoint].
  - split; lia.
  - unfold simulateGivenN. cbn [fst].
    pose proof (runProjection_length p (expensesAnnual p)
                  (solveRrspWForHorizon p N) N) as (L1 & L2 & _).
    specialize (L2 HN).
    set (ys := length (rows (runProjection p (expensesAnnual p) N
                               (solveRrspWForHorizon p N)))) in *.
    destruct (ys =? N)%nat eqn:E.
    + apply Nat.eqb_eq in E. split; [lia|]. split; [reflexivity | exact E].
    + apply Nat.eqb_neq in E.
      destruct (ys <=? 0)%nat eqn:E0; [apply Nat.leb_le in E0; lia|].
      specialize (IH ys L2).
      destruct (fixedPoint p iter ys) as [[[M W]|] M'].
      * destruct IH as (I1 & I2 & I3). split; [lia|]. split; assumption.
      * lia.
Qed.

(** *** Scaled amounts give the same run *)

Lemma scale_lt (s a b a' b' : Q) :
  0 < s -> a' == s * a -> b' == s * b -> (a < b <-> a' < b').
Proof.
  intros Hs Ha Hb. rewrite Ha, Hb. symmetry. apply Qmult_lt_l. exact Hs.
Qed.

Lemma scale_min (s a b a' b' : Q) :
  0 < s -> a' == s * a -> b' == s * b -> Qmin a' b' == s * Qmin a b.
Proof.
  intros Hs Ha Hb. rewrite Ha, Hb.
  destruct (Q.min_spec a b) as [[H ->]|[H ->]].
  - apply Q.min_l. apply Qmult_le_l; [exact Hs | lra].
  - apply Q.min_r. apply Qmult_le_l; [exact Hs | exact H].
Qed.

Lemma scale_max0 (s a a' : Q) :
  0 < s -> a' == s * a -> Qmax 0 a' == s * Qmax 0 a.
Proof.
  intros Hs Ha. rewrite Ha.
  destruct (Q.max_spec 0 a) as [[H ->]|[H ->]].
  - apply Q.max_r. apply Qlt_le_weak. apply Qmult_lt_0_compat; assumption.
  - assert (s * a <= s * 0) by (apply Qmult_le_l; assumption).
    rewrite Q.max_l; [ring | lra].
Qed.

Lemma floorWith_scale (s eps' x x' : Q) :
  0 < s -> eps' == s * EPS -> x' == s * x ->
  floorWith eps' x' == s * floorEPS x.
Proof.
  intros Hs Heps Hx.
  pose proof (scale_lt s x EPS x' eps' Hs Hx Heps) as I.
  unfold floorWith, floorEPS.
  destruct (Qlt_le_dec x' eps') as [H'|H'];
    destruct (Qlt_le_dec x EPS) as [H|H].
  - ring.
  - exfalso. apply I in H'. lra.
  - exfalso. apply I in H. lra.
  - exact Hx.
Qed.

(** A comparison and its scaled form disagree. *)
Ltac clash :=
  exfalso;
  match goal with
  | I : ?A <-> ?B, H : ?A |- _ => apply I in H; lra
  | I : ?A <-> ?B, H : ?B |- _ => apply I in H; lra
  end.

Lemma postRetirement_scale
    (s eps' expense W target tfsaInit nonrInit
     expense' W' target' tfsaInit' nonrInit' : Q) (d : bool) :
  0 < s -> eps' == s * EPS ->
  expense' == s * expense -> W' == s * W -> target' == s * target ->
  tfsaInit' == s * tfsaInit -> nonrInit' == s * nonrInit ->
  flowsScale s (postRetirement expense W target tfsaInit nonrInit d)
    (postRetirementWith eps' expense' W' target' tfsaInit' nonrInit' d).
Proof.
  intros Hs Heps He HW Ht Hti Hn.
  assert (Eneed : expense' + target' - W' == s * (expense + target - W))
    by (rewrite He, HW, Ht; ring).
  assert (Egap : expense' - (W' + nonrInit') == s * (expense - (W + nonrInit)))
    by (rewrite He, HW, Hn; ring).
  assert (M1 : Qmin tfsaInit' (expense' - (W' + nonrInit'))
               == s * Qmin tfsaInit (expense - (W + nonrInit)))
    by (apply scale_min; assumption).
  assert (M2 : Qmin target' (Qmax 0 (nonrInit' + W' - expense'))
               == s * Qmin target (Qmax 0 (nonrInit + W - expense))).
  { apply scale_min; try assumption. apply scale_max0; [assumption|].
    rewrite He, HW, Hn. ring. }
  assert (I1 : 0 < expense + target - W <-> 0 < expense' + target' - W')
    by (apply (scale_lt s); [assumption | ring | assumption]).
  assert (I2 : nonrInit + EPS < expense + target - W
               <-> nonrInit' + eps' < expense' + target' - W')
    by (apply (scale_lt s); [assumption | rewrite Hn, Heps; ring | assumption]).
  assert (I3 : W + nonrInit + EPS < expense
               <-> W' + nonrInit' + eps' < expense')
    by (apply (scale_lt s); [assumption | rewrite HW, Hn, Heps; ring | assumption]).
  assert (I4 : EPS < expense - (W + nonrInit)
                     - Qmin tfsaInit (expense - (W + nonrInit))
               <-> eps' < expense' - (W' + nonrInit')
                             - Qmin tfsaInit' (expense' - (W' + nonrInit')))
    by (apply (scale_lt s); [assumption | exact Heps | rewrite M1, Egap; ring]).
  unfold postRetirement, postRetirementWith, flowsScale. cbv zeta.
  destruct (Qlt_le_dec 0 (expense + target - W)) as [H1|H1];
    destruct (Qlt_le_dec 0 (expense' + target' - W')) as [H1'|H1'];
    try clash;
    [|cbn [f_tfsaC f_tfsaW f_nonrC f_nonrW f_depleted];
      split; [exact Ht|]; split; [ring|]; split; [rewrite Eneed; ring|];
      split; [ring | reflexivity]].
  destruct (Qlt_le_dec (nonrInit + EPS) (expense + target - W)) as [H2|H2];
    destruct (Qlt_le_dec (nonrInit' + eps') (expense' + target' - W')) as [H2'|H2'];
    try clash;
    [|cbn [f_tfsaC f_tfsaW f_nonrC f_nonrW f_depleted];
      split; [exact Ht|]; split; [ring|]; split; [ring|];
      split; [exact Eneed | reflexivity]].
  destruct (Qlt_le_dec (W + nonrInit + EPS) expense) as [H3|H3];
    destruct (Qlt_le_dec (W' + nonrInit' + eps') expense') as [H3'|H3'];
    try clash;
    [|cbn [f_tfsaC f_tfsaW f_nonrC f_nonrW f_depleted];
      split; [exact M2|]; split; [ring|]; split; [ring|];
      split; [exact Hn | reflexivity]].
  destruct (Qlt_le_dec EPS (expense - (W + nonrInit)
                            - Qmin tfsaInit (expense - (W + nonrInit)))) as [H4|H4];
    destruct (Qlt_le_dec eps'
                (expense' - (W' + nonrInit')
                 - Qmin tfsaInit' (expense' - (W' + nonrInit')))) as [H4'|H4'];
    try clash;
    cbn [f_tfsaC f_tfsaW f_nonrC f_nonrW f_depleted];
    (split; [ring|]; split; [exact M1|]; split; [ring|];
     split; [exact Hn | reflexivity]).
Qed.

Lemma preRetirement_scale
    (s eps' income expense rrspC tfsaC tfsaInit nonrInit
     income' expense' rrspC' tfsaC' tfsaInit' nonrInit' : Q) (d : bool) :
  0 < s -> eps' == s * EPS ->
  income' == s * income -> expense' == s * expense -> rrspC' == s * rrspC ->
  tfsaC' == s * tfsaC -> tfsaInit' == s * tfsaInit -> nonrInit' == s * nonrInit ->
  flowsScale s (preRetirement income expense rrspC tfsaC tfsaInit nonrInit d)
    (preRetirementWith eps' income' expense' rrspC' tfsaC' tfsaInit' nonrInit' d).
Proof.
  intros Hs Heps Hi He Hr Ht Hti Hn.
  set (short := expense + rrspC + tfsaC - income).
  set (short' := expense' + rrspC' + tfsaC' - income').
  assert (Eneed : expense' + rrspC' + tfsaC' == s * (expense + rrspC + tfsaC))
    by (rewrite He, Hr, Ht; ring).
  assert (Eshort : short' == s * short)
    by (unfold short, short'; rewrite He, Hr, Ht, Hi; ring).
  assert (M1 : Qmin nonrInit' short' == s * Qmin nonrInit short)
    by (apply scale_min; assumption).
  assert (Eshort1 : short' - Qmin nonrInit' short'
                    == s * (short - Qmin nonrInit short))
    by (rewrite M1, Eshort; ring).
  assert (M2 : Qmin (tfsaInit' + tfsaC') (short' - Qmin nonrInit' short')
               == s * Qmin (tfsaInit + tfsaC) (short - Qmin nonrInit short)).
  { apply scale_min; try assumption. rewrite Hti, Ht. ring. }
  assert (I1 : income < expense + rrspC + tfsaC
               <-> income' < expense' + rrspC' + tfsaC')
    by (apply (scale_lt s); assumption).
  assert (I2 : EPS < short - Qmin nonrInit short
               <-> eps' < short' - Qmin nonrInit' short')
    by (apply (scale_lt s); [assumption | exact Heps | assumption]).
  assert (I3 : EPS < short - Qmin nonrInit short
                     - Qmin (tfsaInit + tfsaC) (short - Qmin nonrInit short)
               <-> eps' < short' - Qmin nonrInit' short'
                             - Qmin (tfsaInit' + tfsaC')
                                 (short' - Qmin nonrInit' short'))
    by (apply (scale_lt s); [assumption | exact Heps | rewrite M2, Eshort1; ring]).
  unfold preRetirement, preRetirementWith, flowsScale. cbv zeta.
  fold short short'.
  destruct (Qlt_le_dec income (expense + rrspC + tfsaC)) as [H1|H1];
    destruct (Qlt_le_dec income' (expense' + rrspC' + tfsaC')) as [H1'|H1'];
    try clash;
    [|cbn [f_tfsaC f_tfsaW f_nonrC f_nonrW f_depleted];
      split; [exact Ht|]; split; [ring|];
      split; [rewrite Hi, Eneed; ring|]; split; [ring | reflexivity]].
  destruct (Qlt_le_dec EPS (short - Qmin nonrInit short)) as [H2|H2];
    destruct (Qlt_le_dec eps' (short' - Qmin nonrInit' short')) as [H2'|H2'];
    try clash.
  - destruct (Qlt_le_dec EPS
                (short - Qmin nonrInit short
                 - Qmin (tfsaInit + tfsaC) (short - Qmin nonrInit short))) as [H3|H3];
      destruct (Qlt_le_dec eps'
                  (short' - Qmin nonrInit' short'
                   - Qmin (tfsaInit' + tfsaC') (short' - Qmin nonrInit' short')))
        as [H3'|H3'];
      try clash;
      cbn [f_tfsaC f_tfsaW f_nonrC f_nonrW f_depleted];
      (split; [exact Ht|]; split; [exact M2|]; split; [ring|];
       split; [exact M1 | reflexivity]).
  - cbn [f_tfsaC f_tfsaW f_nonrC f_nonrW f_depleted].
    destruct (Qlt_le_dec EPS (short - Qmin nonrInit short)) as [H3|H3];
      destruct (Qlt_le_dec eps' (short' - Qmin nonrInit' short')) as [H3'|H3'];
      try (exfalso; lra).
    split; [exact Ht|]. split; [ring|]. split; [ring|].
    split; [exact M1 | reflexivity].
Qed.

Lemma scaleOf_pos (W : Q) : 0 < scaleOf W.
Proof. reflexivity. Qed.

Lemma stepScale_pos (p : Plan) : 0 < stepScale p.
Proof. reflexivity. Qed.

Lemma year_core (p : Plan) (expensesBase W : Q) (t : nat) (v : Vars) (c : Core) :
  coreRel p expensesBase W t v c ->
  coreRel p expensesBase W (S t) (snd (year p expensesBase W t v))
    (coreYear p t c).
Proof.
  intros (Hs & Heps & HW & He & Ht & Hn & Hd & Hc).
  pose proof (stepScale_pos p) as Hstep.
  unfold year, coreYear. cbv zeta. cbn [snd]. rewrite Hd, Hc.
  set (s := c_scale c) in *.
  set (expense := expensesBase * pow (1 + inflationRate p) t) in *.
  set (tI := if (t =? 0)%nat then tfsaInitialBalance p
             else tfsaEndPrev v * (1 + tfsaRoi p)) in *.
  set (nI := if (t =? 0)%nat then nonRegisteredInitialBalance p
             else nonrEndPrev v * (1 + nonRegisteredRoi p)) in *.
  set (target := if nonrCleared v then 0 else tfsaContribute p).
  set (target' := if nonrCleared v then 0 else s * tfsaContribute p).
  assert (Etg : target' == s * target)
    by (unfold target, target'; destruct (nonrCleared v); ring).
  set (f := if (yearsToRetire p <=? t)%nat
            then postRetirement expense
                   (if (yearsToRetire p <=? t)%nat then W else 0)
                   target tI nI (depletedEarly v)
            else preRetirement
                   (if (yearsToRetire p <=? t)%nat then 0 else incomeAnnual p)
                   expense
                   (if (yearsToRetire p <=? t)%nat then 0 else rrspContribute p)
                   target tI nI (depletedEarly v)).
  set (g := if (yearsToRetire p <=? t)%nat
            then postRetirementWith (c_eps c) (c_expense c) (c_rrspW c) target'
                   (c_tfsaInit c) (c_nonrInit c) (depletedEarly v)
            else preRetirementWith (c_eps c) (s * incomeAnnual p) (c_expense c)
                   (s * rrspContribute p) target'
                   (c_tfsaInit c) (c_nonrInit c) (depletedEarly v)).
  assert (Ef : flowsScale s f g).
  { unfold f, g. destruct (yearsToRetire p <=? t)%nat.
    - apply postRetirement_scale; assumption.
    - apply preRetirement_scale; try assumption; reflexivity. }
  destruct Ef as (F1 & F2 & F3 & F4 & F5).
  assert (En : floorWith (c_eps c) (c_nonrInit c + f_nonrC g - f_nonrW g)
               == s * floorEPS (nI + f_nonrC f - f_nonrW f))
    by (apply floorWith_scale; [exact Hs | exact Heps | rewrite Hn, F3, F4; ring]).
  assert (Et : floorWith (c_eps c) (c_tfsaInit c + f_tfsaC g - f_tfsaW g)
               == s * floorEPS (tI + f_tfsaC f - f_tfsaW f))
    by (apply floorWith_scale; [exact Hs | exact Heps | rewrite Ht, F1, F2; ring]).
  unfold coreRel.
  cbn [c_scale c_eps c_rrspW c_expense c_tfsaInit c_nonrInit c_depleted c_cleared
       tfsaEndPrev nonrEndPrev depletedEarly nonrCleared Nat.eqb].
  rewrite !Qred_correct.
  split; [apply Qmult_lt_0_compat; assumption|].
  split; [rewrite Heps; ring|].
  split; [rewrite HW; ring|].
  split; [rewrite He; unfold expense; rewrite pow_S; ring|].
  split; [rewrite Et; ring|].
  split; [rewrite En; ring|].
  split; [exact F5|].
  destruct (Qeq_dec (floorWith (c_eps c) (c_nonrInit c + f_nonrC g - f_nonrW g)) 0)
    as [Za|Za];
    destruct (Qeq_dec (floorEPS (nI + f_nonrC f - f_nonrW f)) 0) as [Zb|Zb];
    try reflexivity; exfalso.
  - rewrite En in Za. apply Zb.
    destruct (Qmult_integral _ _ Za) as [Z|Z]; [lra | exact Z].
  - apply Za. rewrite En, Zb. ring.
Qed.

Lemma years_core (p : Plan) (expensesBase : Q) (N : nat) (W : Q) :
  forall k t v c,
    coreRel p expensesBase W t v c ->
    length (fst (years p expensesBase N W k t v))
    = coreYears p N k t c.
Proof.
  induction k as [|k IH]; intros t v c Hrel.
  - reflexivity.
  - rewrite years_S. cbn [coreYears].
    pose proof (year_core p expensesBase W t v c Hrel) as Hnext.
    destruct Hnext as (_ & _ & _ & _ & _ & _ & Hd & _). rewrite Hd.
    destruct (depletedEarly (snd (year p expensesBase W t v)) && (t <? N - 1)%nat).
    + reflexivity.
    + cbn [fst length]. f_equal. apply IH.
      exact (year_core p expensesBase W t v c Hrel).
Qed.

Lemma rows_core (p : Plan) (expensesBase : Q) (N : nat) (W : Q) :
  length (rows (runProjection p expensesBase N W))
  = coreRows p expensesBase N W.
Proof.
  destruct (runProjection_unfold p expensesBase W N) as [-> _].
  apply years_core. unfold coreRel, coreStart.
  cbn [c_scale c_eps c_rrspW c_expense c_tfsaInit c_nonrInit c_depleted c_cleared
       startVars depletedEarly nonrCleared Nat.eqb].
  rewrite !Qred_correct, pow_0.
  split; [apply scaleOf_pos|]. split; [reflexivity|]. split; [reflexivity|]. split; [ring|].
  split; [reflexivity|]. split; reflexivity || (split; reflexivity).
Qed.

Lemma fixedPoint_core (p : Plan) :
  forall iter N, fixedPoint p iter N = fixedPointCore p iter N.
Proof.
  induction iter as [|iter IH]; intros N; cbn [fixedPoint fixedPointCore].
  - reflexivity.
  - unfold simulateGivenN. cbn [fst]. rewrite rows_core.
    destruct (coreRows p (expensesAnnual p) N (solveRrspWForHorizon p N) =? N)%nat;
      [reflexivity|].
    destruct (coreRows p (expensesAnnual p) N (solveRrspWForHorizon p N) <=? 0)%nat;
      [reflexivity | apply IH].
Qed.

(** C6, amended: when a turn of the iteration finds a candidate that
    survives exactly as many years as it counts, the solver returns
    that candidate with its own withdrawal, and re-simulating it gives
    exactly that many rows; when the 25 turns pass without such a
    candidate, the solver returns the candidate it ended with (at least
    1, at most 95) and its withdrawal, with no such guarantee. *)
Theorem max_horizon_fixed_point (p : Plan) :
  (forall N W,
     fst (fixedPoint p 25 MAX_YEARS_CAP) = Some (N, W) ->
     findMaxYearsResult p = (N, W) /\
     (1 <= N <= MAX_YEARS_CAP)%nat /\
     W = solveRrspWForHorizon p N /\
     length (rows (runProjection p (expensesAnnual p) N
                     (solveRrspWForHorizon p N))) = N) /\
  (fst (fixedPoint p 25 MAX_YEARS_CAP) = None ->
   findMaxYearsResult p
   = (snd (fixedPoint p 25 MAX_YEARS_CAP),
      solveRrspWForHorizon p (snd (fixedPoint p 25 MAX_YEARS_CAP))) /\
   (1 <= snd (fixedPoint p 25 MAX_YEARS_CAP) <= 95)%nat).
Proof.
  pose proof (fixedPoint_spec p 25 MAX_YEARS_CAP ltac:(unfold MAX_YEARS_CAP; lia))
    as H.
  unfold findMaxYearsResult.
  destruct (fixedPoint p 25 MAX_YEARS_CAP) as [[[M V]|] M']; cbn [fst snd].
  - destruct H as (H1 & H2 & H3). split; [|intros; discriminate].
    intros N W E. injection E as <- <-.
    split; [reflexivity|]. split; [exact H1|]. split; [exact H2|].
    rewrite <- H2. exact H3.
  - split; [intros; discriminate|]. intros _.
    destruct H as [H1 H2]. unfold MAX_YEARS_CAP in H2.
    rewrite Nat.max_r by lia. split; [reflexivity | lia].
Qed.

Lemma max_horizon_fixed_point_witness :
  findMaxYearsResult tenYearPlan = (11%nat, solveRrspWForHorizon tenYearPlan 11) /\
  length (rows (runProjection tenYearPlan (expensesAnnual tenYearPlan) 11
                  (solveRrspWForHorizon tenYearPlan 11))) = 11%nat.
Proof.
  destruct (proj1 (max_horizon_fixed_point tenYearPlan) 11%nat
              (solveRrspWForHorizon tenYearPlan 11)) as (H1 & _ & _ & H2).
  - rewrite fixedPoint_core. vm_compute. reflexivity.
  - split; [exact H1 | exact H2].
Defined.

(** C6, as stated, fails when the 25 turns pass without a stable
    candidate.  In [driftPlan] every candidate survives fewer years
    than it counts (120, 118, 116, 115, ... , 91, 90); the solver
    returns the number of years the last one survived, 89, and
    re-simulating 89 with its own withdrawal gives 88 rows. *)
Lemma horizon_budget_exhausted :
  fst (fixedPoint driftPlan 25 MAX_YEARS_CAP) = None /\
  findMaxYearsResult driftPlan = (89%nat, solveRrspWForHorizon driftPlan 89) /\
  length (rows (runProjection driftPlan (expensesAnnual driftPlan) 89
                  (solveRrspWForHorizon driftPlan 89))) = 88%nat.
Proof.
  assert (E : fixedPoint driftPlan 25 MAX_YEARS_CAP = (None, 89%nat))
    by (rewrite fixedPoint_core; vm_compute; reflexivity).
  split; [rewrite E; reflexivity|]. split.
  - unfold findMaxYearsResult. rewrite E. reflexivity.
  - rewrite rows_core. vm_compute. reflexivity.
Qed.

(** * Further properties of the engine *)

(** ** What a year leaves uncovered *)




Section Shortfall.

Variable p : Plan.
Variables (expensesBase : Q) (W : Q).

Local Abbreviation before := (varsBefore p expensesBase W).
Local Abbreviation row := (rowAt p expensesBase W).


End Shortfall.






(** ** Flows and the balances they draw on *)





(** ** The tax-deferred columns *)

(** X4.  The tax-deferred columns of the projection do not depend on
    the expense, on the income or on the two other accounts: in every
    row the contribution is the one of the plan before retirement and
    zero from then on, the withdrawal is zero before retirement and
    the fixed withdrawal from then on, and the closing balance is what
    [simulate], the loop inside the solver, returns for the same
    withdrawal over the years up to that row. *)
Theorem rrsp_column_is_solver_track
    (p : Plan) (expensesBase : Q) (N : nat) (W : Q) (i : nat) (r : Row) :
  nth_error (rows (runProjection p expensesBase N W)) i = Some r ->
  rrspC r = (if (i <? yearsToRetire p)%nat then rrspContribute p else 0) /\
  rrspW r = (if (yearsToRetire p <=? i)%nat then W else 0) /\
  rrspEnd r
  = simulate (yearsToRetire p) (S i) (rrspInitialBalance p)
      (rrspContribute p) (rrspRoi p) W.
Proof.
  intros Hr. apply nth_error_rows in Hr. subst r.
  split; [|split].
  - unfold rowAt, year. cbv zeta. cbn [fst rrspC]. rewrite Nat.ltb_antisym.
    destruct (yearsToRetire p <=? i)%nat; reflexivity.
  - reflexivity.
  - apply rrspEnd_simulate.
Qed.

Lemma rrsp_column_is_solver_track_witness :
  rrspEnd reopenRow0
  = simulate (yearsToRetire reopenPlan) 1 (rrspInitialBalance reopenPlan)
      (rrspContribute reopenPlan) (rrspRoi reopenPlan)
      (solveRrspWForHorizon reopenPlan 2).
Proof.
  apply (rrsp_column_is_solver_track reopenPlan (expensesAnnual reopenPlan) 2
           (solveRrspWForHorizon reopenPlan 2) 0 reopenRow0).
  vm_compute. reflexivity.
Defined.

(** ** The withdrawal solver before retirement *)

Section SolverHorizon.

Variables (R : nat) (B C roi : Q).

Local Abbreviation sim := (simulate R).
Local Abbreviation yr := (rrsp_year R B C roi).

(** The loop of [simulate] over one more year. *)
Lemma simulate_from_snoc (W : Q) :
  forall k t x,
    simulate_from R B C roi W (S k) t x
    = yr W (t + k) (simulate_from R B C roi W k t x).
Proof.
  induction k as [|k IH]; intros t x.
  - cbn [simulate_from]. rewrite Nat.add_0_r. reflexivity.
  - change (simulate_from R B C roi W (S (S k)) t x)
      with (simulate_from R B C roi W (S k) (S t) (yr W t x)).
    rewrite IH. cbn [simulate_from].
    replace (S t + k)%nat with (t + S k)%nat by lia. reflexivity.
Qed.

Lemma simulate_S (N : nat) (W : Q) :
  sim (S N) B C roi W = yr W N (sim N B C roi W).
Proof. unfold simulate. apply simulate_from_snoc. Qed.

(** The slope [a0 - a1] of the two probes, one year on. *)
Lemma slope_S (N : nat) :
  sim (S N) B C roi 0 - sim (S N) B C roi 1
  == (if (N =? 0)%nat then 0
      else (sim N B C roi 0 - sim N B C roi 1) * (1 + roi))
     + (if (R <=? N)%nat then 1 else 0).
Proof.
  rewrite !simulate_S. unfold rrsp_year. cbv zeta.
  destruct (N =? 0)%nat; destruct (N <? R)%nat; destruct (R <=? N)%nat; ring.
Qed.

(** Without one, the two probes end alike. *)
Lemma slope_zero (N : nat) :
  (N <= R)%nat -> sim N B C roi 0 - sim N B C roi 1 == 0.
Proof.
  induction N as [|N IH]; intros HN.
  - unfold simulate. cbn [simulate_from]. ring.
  - rewrite slope_S.
    assert (E : (R <=? N)%nat = false) by (apply Nat.leb_gt; lia). rewrite E.
    destruct (N =? 0)%nat; [ring|]. rewrite IH by lia. ring.
Qed.

End SolverHorizon.

(** X5.  A horizon that ends before retirement begins, or with it,
    leaves the two probes of the solver with the same closing balance:
    the test [b > 0] fails and the fixed withdrawal is 0. *)
Theorem no_withdrawal_without_retirement (p : Plan) (N : nat) :
  (N <= yearsToRetire p)%nat ->
  simulate (yearsToRetire p) N (rrspInitialBalance p) (rrspContribute p)
    (rrspRoi p) 0
  == simulate (yearsToRetire p) N (rrspInitialBalance p) (rrspContribute p)
       (rrspRoi p) 1 /\
  solveRrspWForHorizon p N = 0.
Proof.
  intros HN.
  pose proof (slope_zero (yearsToRetire p) (rrspInitialBalance p)
                (rrspContribute p) (rrspRoi p) N HN) as Hz.
  split; [lra|].
  unfold solveRrspWForHorizon, solveRRSPWithdrawal. cbv zeta.
  destruct (Qlt_le_dec 0
              (simulate (yearsToRetire p) N (rrspInitialBalance p)
                 (rrspContribute p) (rrspRoi p) 0
               - simulate (yearsToRetire p) N (rrspInitialBalance p)
                   (rrspContribute p) (rrspRoi p) 1)) as [H|H];
    [lra | reflexivity].
Qed.

Lemma no_withdrawal_without_retirement_witness :
  solveRrspWForHorizon reopenPlan 1 = 0.
Proof.
  exact (proj2 (no_withdrawal_without_retirement reopenPlan 1 (le_n 1))).
Defined.

(** ** The data rows of the worksheet *)

Lemma writeRows_length (c : bool) (rs : list Row) :
  length (writeRows c rs) = length rs.
Proof.
  revert c. induction rs as [|r rs IH]; intros c; cbn [writeRows writeRow length].
  - reflexivity.
  - rewrite IH. reflexivity.
Qed.

Lemma writeRows_nth :
  forall (rs : list Row) (c : bool) (i : nat) (s : SheetRow),
    nth_error (writeRows c rs) i = Some s ->
    exists r,
      nth_error rs i = Some r /\
      s = fst (writeRow (c || existsb tfsaBlockEmpty (firstn i rs)) r).
Proof.
  induction rs as [|r0 rs IH]; intros c i s H.
  - destruct i; discriminate H.
  - cbn [writeRows writeRow] in H. destruct i as [|i].
    + cbn [nth_error] in H. injection H as <-. exists r0.
      cbn [nth_error firstn existsb]. rewrite orb_false_r.
      split; reflexivity.
    + cbn [nth_error] in H. apply IH in H. destruct H as (r & Hr & ->).
      exists r. cbn [nth_error firstn existsb]. split; [exact Hr|].
      f_equal. f_equal.
      destruct c; destruct (tfsaBlockEmpty r0); reflexivity.
Qed.

Lemma existsb_firstn_S (f : Row -> bool) :
  forall (rs : list Row) (i : nat) (r : Row),
    nth_error rs i = Some r ->
    existsb f (firstn (S i) rs) = existsb f (firstn i rs) || f r.
Proof.
  induction rs as [|r0 rs IH]; intros [|i] r H; try discriminate H.
  - cbn [nth_error] in H. injection H as ->.
    rewrite firstn_cons, !firstn_O. cbn [existsb]. apply orb_false_r.
  - cbn [nth_error] in H. rewrite !firstn_cons. cbn [existsb].
    rewrite (IH i r H). apply orb_assoc.
Qed.

(** X8.  The sheet has one data row for each row of the projection.  It
    copies age, income, expense and the tax-deferred and taxable
    columns as they are.  The four tax-free cells show the amounts of the
    row as long as no row so far opened the tax-free account at zero or
    less with a contribution of zero or less; from the first such row
    on, that row included, they are left empty in every row. *)
Theorem tfsa_cells_blank_once_empty (rs : list Row) (i : nat) (s : SheetRow) :
  nth_error (dataRows rs) i = Some s ->
  length (dataRows rs) = length rs /\
  exists r,
    nth_error rs i = Some r /\
    cellA s = age r /\ cellN s = income r /\ cellO s = expense r /\
    cellB s = rrspInit r /\ cellC s = rrspC r /\
    cellD s = rrspW r /\ cellE s = rrspEnd r /\
    cellJ s = nonrInit r /\ cellK s = nonrC r /\
    cellL s = nonrW r /\ cellM s = nonrEnd r /\
    if existsb tfsaBlockEmpty (firstn (S i) rs)
    then cellF s = None /\ cellG s = None /\ cellH s = None /\ cellI s = None
    else cellF s = Some (tfsaInit r) /\ cellG s = Some (tfsaC r) /\
         cellH s = Some (tfsaW r) /\ cellI s = Some (tfsaEnd r).
Proof.
  intros H. split; [apply writeRows_length|].
  apply writeRows_nth in H. destruct H as (r & Hr & ->).
  exists r. split; [exact Hr|].
  cbn [writeRow fst cellA cellB cellC cellD cellE cellF cellG cellH cellI
       cellJ cellK cellL cellM cellN cellO orb].
  repeat (split; [reflexivity|]).
  rewrite (existsb_firstn_S tfsaBlockEmpty rs i r Hr).
  destruct (existsb tfsaBlockEmpty (firstn i rs)); cbn [negb andb orb].
  - repeat split.
  - destruct (tfsaBlockEmpty r); repeat split.
Qed.

Lemma tfsa_cells_blank_once_empty_witness :
  length (dataRows (rows reopenRun)) = length (rows reopenRun) /\
  exists r, nth_error (rows reopenRun) 0 = Some r /\ cellA reopenCells0 = age r.
Proof.
  destruct (tfsa_cells_blank_once_empty (rows reopenRun) 0 reopenCells0)
    as (H1 & r & H2 & H3 & _).
  - vm_compute. reflexivity.
  - split; [exact H1|]. exists r. split; [exact H2 | exact H3].
Defined.

(** ** What the empty cells hide *)



Section TfsaIdle.

Variable p : Plan.
Variables (expensesBase : Q) (W : Q).

Local Abbreviation before := (varsBefore p expensesBase W).
Local Abbreviation row := (rowAt p expensesBase W).





End TfsaIdle.



(** ** The workbook *)

Lemma findMaxYearsResult_spec (p : Plan) :
  (1 <= fst (findMaxYearsResult p) <= MAX_YEARS_CAP)%nat /\
  snd (findMaxYearsResult p) = solveRrspWForHorizon p (fst (findMaxYearsResult p)).
Proof.
  pose proof (fixedPoint_spec p 25 MAX_YEARS_CAP ltac:(unfold MAX_YEARS_CAP; lia))
    as H.
  unfold findMaxYearsResult.
  destruct (fixedPoint p 25 MAX_YEARS_CAP) as [[[M V]|] M']; cbn [fst snd].
  - destruct H as (H1 & H2 & _). split; [exact H1 | exact H2].
  - unfold MAX_YEARS_CAP in *. split; [lia | reflexivity].
Qed.

Lemma sameString_eq (a b : JsString) : sameString a b = true <-> a = b.
Proof.
  revert b. induction a as [|x a IH]; intros [|y b]; cbn [sameString];
    try (split; [discriminate | discriminate]); [split; reflexivity|].
  rewrite andb_true_iff, N.eqb_eq, IH. split.
  - intros [-> ->]. reflexivity.
  - intros E. injection E as -> ->. split; reflexivity.
Qed.

(** X10.  A request that is answered with a workbook is not in mode
    ["solveExpenses"].  A mode other than ["findMaxYears"], known to
    the handler or not, takes the path of [standard]: the final
    simulation is asked for the horizon of the request, or for 1 when
    that is less; in mode ["findMaxYears"] it is asked for a horizon
    from 1 to 120.  The sheet has at least one data row and at most as
    many as that horizon; [R1] shows the withdrawal solved for that
    horizon; [R2] shows the mode as it came; [R3] shows the number of
    data rows in mode ["findMaxYears"] and is left empty otherwise. *)
Theorem workbook_shape (p : Plan) (mode : JsString) (wb : Workbook) :
  generateExcel p mode = Some wb ->
  mode <> text_solveExpenses /\
  (1 <= yearsToPlanFinal p (pathOf mode))%nat /\
  (mode <> text_findMaxYears ->
   pathOf mode = standard /\
   Z.of_nat (yearsToPlanFinal p (pathOf mode)) = Z.max 1 (yearsToPlanInput p)) /\
  (mode = text_findMaxYears ->
   pathOf mode = findMaxYears /\
   (yearsToPlanFinal p (pathOf mode) <= 120)%nat) /\
  (1 <= length (sheetData wb) <= yearsToPlanFinal p (pathOf mode))%nat /\
  cellR1 wb = solveRrspWForHorizon p (yearsToPlanFinal p (pathOf mode)) /\
  cellR2 wb = mode /\
  cellR3 wb = match pathOf mode with
              | findMaxYears => Some (length (sheetData wb))
              | _ => None
              end.
Proof.
  intros H. unfold generateExcel in H.
  destruct (findMaxYearsResult_spec p) as [[F1 F2] F3].
  assert (Hstd : (1 <= yearsToPlanOfInput p)%nat /\
                 Z.of_nat (yearsToPlanOfInput p) = Z.max 1 (yearsToPlanInput p))
    by (unfold yearsToPlanOfInput; split; lia).
  unfold pathOf in *.
  destruct (sameString mode text_findMaxYears) eqn:Ef;
    [apply sameString_eq in Ef
    |destruct (sameString mode text_solveExpenses) eqn:Es];
    cbn [finalProjection] in H; [| discriminate H |];
    injection H as <-;
    cbn [sheetData cellR1 cellR2 cellR3 yearsToPlanFinal rrspWithdrawFixedFinal];
    unfold dataRows; rewrite writeRows_length.
  - pose proof (runProjection_length p (expensesAnnual p)
                  (snd (findMaxYearsResult p))
                  (fst (findMaxYearsResult p))) as (L1 & L2 & _).
    split; [rewrite Ef; discriminate|]. split; [exact F1|].
    split; [intros N; contradiction|].
    split; [intros _; split; [reflexivity | exact F2]|].
    split; [split; [apply L2; exact F1 | exact L1]|].
    split; [exact F3|]. split; reflexivity.
  - pose proof (runProjection_length p (expensesAnnual p)
                  (solveRrspWForHorizon p (yearsToPlanOfInput p))
                  (yearsToPlanOfInput p)) as (L1 & L2 & _).
    split; [intros E; apply sameString_eq in E; congruence|].
    split; [apply Hstd|].
    split; [intros _; split; [reflexivity | apply Hstd]|].
    split; [intros E; apply sameString_eq in E; congruence|].
    split; [split; [apply L2; apply Hstd | exact L1]|].
    split; [reflexivity|]. split; reflexivity.
Qed.

(** A mode the handler does not know, ["bogus"], is answered as
    ["standard"] is, and shown in [R2]. *)
Lemma workbook_shape_witness :
  (1 <= length (sheetData (reopenWorkbook [98; 111; 103; 117; 115]%N)) <= 2)%nat /\
  cellR2 (reopenWorkbook [98; 111; 103; 117; 115]%N) = [98; 111; 103; 117; 115]%N.
Proof.
  destruct (workbook_shape reopenPlan [98; 111; 103; 117; 115]%N
              (reopenWorkbook [98; 111; 103; 117; 115]%N))
    as (_ & _ & _ & _ & H1 & _ & H2 & _).
  - vm_compute. reflexivity.
  - split; [exact H1 | exact H2].
Defined.

(** ** The horizon and the rows *)

Lemma firstn_seq_min :
  forall n start len, firstn n (seq start len) = seq start (Nat.min n len).
Proof.
  induction n as [|n IH]; intros start [|len]; cbn [firstn seq Nat.min];
    try reflexivity.
  rewrite IH. reflexivity.
Qed.

(** X11.  With the same expense base and the same fixed withdrawal, the
    horizon only decides where the table stops: the rows of a run over
    [N] years are the first [N] rows of the run over any longer
    horizon. *)
Theorem shorter_horizon_truncates
    (p : Plan) (expensesBase : Q) (W : Q) (N M : nat) :
  (N <= M)%nat ->
  rows (runProjection p expensesBase N W)
  = firstn N (rows (runProjection p expensesBase M W)).
Proof.
  intros HNM.
  destruct (runProjection_rows p expensesBase W N) as [RN _].
  destruct (runProjection_rows p expensesBase W M) as [RM _].
  destruct (runProjection_length p expensesBase W N) as (N1 & N2 & N3 & N4).
  destruct (runProjection_length p expensesBase W M) as (M1 & M2 & M3 & M4).
  set (LN := length (rows (runProjection p expensesBase N W))) in *.
  set (LM := length (rows (runProjection p expensesBase M W))) in *.
  assert (E : LN = Nat.min N LM).
  { destruct (Nat.eq_dec N 0) as [->|HN0]; [lia|].
    specialize (N2 ltac:(lia)). specialize (M2 ltac:(lia)).
    destruct (Nat.lt_ge_cases LN N) as [Hlt|Hge].
    - specialize (N3 Hlt).
      destruct (Nat.lt_trichotomy LN LM) as [H|[H|H]].
      + rewrite M4 in N3 by lia. discriminate.
      + lia.
      + specialize (M3 ltac:(lia)). rewrite N4 in M3 by lia. discriminate.
    - destruct (Nat.lt_ge_cases LM N) as [H|H]; [|lia].
      specialize (M3 ltac:(lia)). rewrite N4 in M3 by lia. discriminate. }
  rewrite RN, RM, E. rewrite firstn_map, firstn_seq_min. reflexivity.
Qed.

Lemma shorter_horizon_truncates_witness :
  rows (runProjection reopenPlan (expensesAnnual reopenPlan) 1
          (solveRrspWForHorizon reopenPlan 2))
  = firstn 1 (rows reopenRun).
Proof.
  apply (shorter_horizon_truncates reopenPlan (expensesAnnual reopenPlan)
           (solveRrspWForHorizon reopenPlan 2) 1 2).
  apply le_S, le_n.
Defined.

(** ** The helpers, character by character *)

Lemma whiteSpace_not_kept (c : N) : isWhiteSpace c = true -> kept c = false.
Proof.
  unfold isWhiteSpace, kept, isDigit. cbn [existsb]. intros H.
  repeat (apply orb_true_iff in H; destruct H as [H|H]);
    try (apply N.eqb_eq in H; subst c; reflexivity);
    try discriminate H.
  apply andb_true_iff in H. destruct H as [H1 H2].
  apply N.leb_le in H1. apply N.leb_le in H2.
  assert (E1 : (c <=? 57)%N = false) by (apply N.leb_gt; lia).
  assert (E2 : (c =? 46)%N = false) by (apply N.eqb_neq; lia).
  assert (E3 : (c =? 45)%N = false) by (apply N.eqb_neq; lia).
  rewrite E1, E2, E3, andb_false_r. reflexivity.
Qed.

Lemma trimStart_nil (s : JsString) :
  trimStart s = [] -> forallb isWhiteSpace s = true.
Proof.
  induction s as [|c r IH]; cbn [trimStart forallb]; intros H.
  - reflexivity.
  - destruct (isWhiteSpace c); [exact (IH H) | discriminate H].
Qed.

Lemma trimStart_all (s : JsString) :
  forallb isWhiteSpace s = true -> trimStart s = [].
Proof.
  induction s as [|c r IH]; cbn [trimStart forallb]; intros H.
  - reflexivity.
  - apply andb_true_iff in H. destruct H as [H1 H2]. rewrite H1. exact (IH H2).
Qed.

Lemma trimStart_head (s : JsString) (c : N) (r : JsString) :
  trimStart s = c :: r -> isWhiteSpace c = false.
Proof.
  induction s as [|d t IH]; cbn [trimStart]; intros H.
  - discriminate H.
  - destruct (isWhiteSpace d) eqn:E; [exact (IH H)|].
    injection H as -> _. exact E.
Qed.

(** A string that trims to nothing is white space throughout. *)
Lemma trim_nil (s : JsString) :
  trim s = [] <-> forallb isWhiteSpace s = true.
Proof.
  unfold trim. split.
  - intros H. apply (f_equal (@rev N)) in H. rewrite rev_involutive in H.
    cbn [rev] in H.
    destruct (trimStart s) as [|c r] eqn:E.
    + apply trimStart_nil. exact E.
    + exfalso. pose proof (trimStart_head s c r E) as Hc.
      apply trimStart_nil in H. rewrite forallb_forall in H.
      specialize (H c). rewrite <- in_rev in H.
      rewrite (H (or_introl eq_refl)) in Hc. discriminate Hc.
  - intros H. rewrite (trimStart_all s H). reflexivity.
Qed.

Lemma clean_whiteSpace (s : JsString) :
  forallb isWhiteSpace s = true -> clean s = [].
Proof.
  induction s as [|c r IH]; cbn [forallb clean filter]; intros H.
  - reflexivity.
  - apply andb_true_iff in H. destruct H as [H1 H2].
    rewrite (whiteSpace_not_kept c H1). exact (IH H2).
Qed.

Lemma clean_trimStart (s : JsString) : clean (trimStart s) = clean s.
Proof.
  induction s as [|c r IH]; cbn [trimStart]; [reflexivity|].
  destruct (isWhiteSpace c) eqn:E; [|reflexivity].
  cbn [clean filter]. rewrite (whiteSpace_not_kept c E). exact IH.
Qed.

Lemma clean_rev (s : JsString) : clean (rev s) = rev (clean s).
Proof.
  unfold clean. induction s as [|c r IH]; cbn [rev filter]; [reflexivity|].
  rewrite filter_app, IH. cbn [filter].
  destruct (kept c); cbn [rev app]; [reflexivity | apply app_nil_r].
Qed.

(** Trimming takes away nothing that the cleaning would keep. *)
Lemma clean_trim (s : JsString) : clean (trim s) = clean s.
Proof.
  unfold trim.
  rewrite clean_rev, clean_trimStart, clean_rev, rev_involutive.
  apply clean_trimStart.
Qed.

(** The number [toNum] returns depends on the cleaned string only. *)
Lemma toNum_rawOf (s : JsString) :
  toNum (rawOf (JsOther s))
  = (if Double.isFinite (numberOfCleaned (clean s))
     then Double.toQ (numberOfCleaned (clean s))
     else 0).
Proof.
  cbn [rawOf]. cbv zeta. rewrite clean_trim.
  destruct (trim s) as [|c r] eqn:E.
  - apply trim_nil in E. rewrite (clean_whiteSpace s E). reflexivity.
  - destruct (Double.isFinite (numberOfCleaned (clean s))); reflexivity.
Qed.

(** X12.  [toNum] reads a value through its digits, dots and minus
    signs alone: a character of any other kind, anywhere in the
    string, changes nothing.  Currency signs, thousands separators,
    spaces and percent signs are dropped, and so are the [e] and the
    [+] of a number written with an exponent, which is therefore not
    read as an exponent. *)
Theorem toNum_ignores_other_characters (s1 s2 : JsString) (c : N) :
  kept c = false ->
  toNum (rawOf (JsOther (s1 ++ c :: s2))) = toNum (rawOf (JsOther (s1 ++ s2))).
Proof.
  intros Hc. rewrite !toNum_rawOf. unfold clean.
  rewrite !filter_app. cbn [filter]. rewrite Hc. reflexivity.
Qed.

(** ["1e5"] is read as 15. *)
Lemma toNum_ignores_other_characters_witness :
  toNum (rawOf (JsOther [49; 101; 53]%N)) = toNum (rawOf (JsOther [49; 53]%N)).
Proof.
  exact (toNum_ignores_other_characters [49%N] [53%N] 101%N eq_refl).
Defined.

Lemma spanDigits_spec (s : JsString) :
  s = fst (spanDigits s) ++ snd (spanDigits s) /\
  forallb isDigit (fst (spanDigits s)) = true /\
  match snd (spanDigits s) with
  | [] => True
  | c :: _ => isDigit c = false
  end.
Proof.
  induction s as [|c r IH]; cbn [spanDigits].
  - repeat split.
  - destruct (isDigit c) eqn:E.
    + destruct (spanDigits r) as [ds rest]. cbn [fst snd] in *.
      destruct IH as (I1 & I2 & I3).
      split; [cbn [app]; rewrite <- I1; reflexivity|].
      split; [cbn [forallb]; rewrite E, I2; reflexivity | exact I3].
    + cbn [fst snd app forallb]. repeat split. exact E.
Qed.

Lemma spanDigits_digits (ds rest : JsString) :
  forallb isDigit ds = true ->
  match rest with
  | [] => True
  | c :: _ => isDigit c = false
  end ->
  spanDigits (ds ++ rest) = (ds, rest).
Proof.
  intros Hd Hr. induction ds as [|d ds IH]; cbn [app].
  - destruct rest as [|c r]; [reflexivity|]. cbn [spanDigits]. rewrite Hr.
    reflexivity.
  - cbn [forallb] in Hd. apply andb_true_iff in Hd. destruct Hd as [H1 H2].
    cbn [spanDigits]. rewrite H1, (IH H2). reflexivity.
Qed.

Lemma digits_count (ds : JsString) (c : N) :
  forallb isDigit ds = true -> isDigit c = false ->
  count_occ N.eq_dec ds c = 0%nat.
Proof.
  intros Hd Hc. induction ds as [|d ds IH]; [reflexivity|].
  cbn [forallb] in Hd. apply andb_true_iff in Hd. destruct Hd as [H1 H2].
  cbn [count_occ]. destruct (N.eq_dec d c) as [->|_].
  - rewrite H1 in Hc. discriminate Hc.
  - exact (IH H2).
Qed.

(** A string that [Number] reads as an unsigned decimal holds no minus
    sign and at most one point. *)
Lemma unsignedDecimal_counts (s : JsString) (q : Q) :
  unsignedDecimal s = Some q ->
  count_occ N.eq_dec s 45%N = 0%nat /\ (count_occ N.eq_dec s 46%N <= 1)%nat.
Proof.
  unfold unsignedDecimal.
  destruct (spanDigits_spec s) as (E & Hd & Hr).
  destruct (spanDigits s) as [ip rest]. cbn [fst snd] in *.
  destruct rest as [|c rest'].
  - intros _. rewrite E, app_nil_r.
    rewrite !digits_count by (assumption || reflexivity). split; lia.
  - destruct (c =? 46)%N eqn:Ec; [|discriminate].
    apply N.eqb_eq in Ec. subst c.
    destruct (spanDigits_spec rest') as (E' & Hd' & Hr').
    destruct (spanDigits rest') as [fp rest'']. cbn [fst snd] in *.
    destruct rest'' as [|c2 r2]; [|discriminate].
    intros _. rewrite E, E', app_nil_r.
    rewrite !count_occ_app. cbn [count_occ].
    rewrite !digits_count by (assumption || reflexivity).
    destruct (N.eq_dec 46 45) as [H|_]; [discriminate H|].
    destruct (N.eq_dec 46 46) as [_|H]; [|contradiction].
    split; lia.
Qed.

Lemma valueOfCleaned_counts (s : JsString) (q : Q) :
  valueOfCleaned s = Some q ->
  (count_occ N.eq_dec s 46%N <= 1)%nat /\
  (forall a b, s = a ++ 45%N :: b -> a = []).
Proof.
  destruct s as [|c r]; cbn [valueOfCleaned].
  - intros _. split; [cbn; lia|]. intros [|x a] b H; discriminate H.
  - destruct (c =? 45)%N eqn:Ec.
    + apply N.eqb_eq in Ec. subst c.
      destruct (unsignedDecimal r) as [u|] eqn:Eu; [|discriminate].
      intros _. destruct (unsignedDecimal_counts r u Eu) as [C1 C2].
      split.
      * cbn [count_occ]. destruct (N.eq_dec 45 46) as [H|_]; [discriminate H|].
        exact C2.
      * intros [|x a] b H; [reflexivity|]. exfalso.
        cbn [app] in H. injection H as _ H.
        rewrite H, count_occ_app in C1. cbn [count_occ] in C1.
        destruct (N.eq_dec 45 45) as [_|N]; [lia | contradiction].
    + intros Hu. destruct (unsignedDecimal_counts (c :: r) q Hu) as [C1 C2].
      split; [exact C2|].
      intros [|x a] b H.
      * reflexivity.
      * exfalso. rewrite H, count_occ_app in C1.
        cbn [app count_occ] in C1.
        destruct (N.eq_dec 45 45) as [_|N]; [|contradiction].
        destruct (N.eq_dec x 45); lia.
Qed.

(** X13.  A value whose digits, dots and minus signs do not make one
    decimal literal is read as 0, not as a part of it: a minus sign
    after the first kept character (a range such as [10-20], a date,
    the exponent of [1e-7]) or a second point gives 0. *)
Theorem toNum_zero_on_broken_literal (s a b c : JsString) :
  (a <> [] /\ clean s = a ++ 45%N :: b) \/
  clean s = a ++ 46%N :: b ++ 46%N :: c ->
  toNum (rawOf (JsOther s)) = 0.
Proof.
  intros H. rewrite toNum_rawOf. unfold numberOfCleaned.
  destruct (valueOfCleaned (clean s)) as [q|] eqn:E; [|reflexivity].
  exfalso. destruct (valueOfCleaned_counts _ _ E) as [C1 C2].
  destruct H as [[Ha H]|H].
  - apply Ha. exact (C2 a b H).
  - rewrite H in C1. rewrite !count_occ_app in C1. cbn [count_occ] in C1.
    rewrite count_occ_app in C1. cbn [count_occ] in C1.
    destruct (N.eq_dec 46 46) as [_|N]; [lia | contradiction].
Qed.

(** ["1e-7"] is read as 0. *)
Lemma toNum_zero_on_broken_literal_witness :
  toNum (rawOf (JsOther [49; 101; 45; 55]%N)) = 0.
Proof.
  apply (toNum_zero_on_broken_literal [49; 101; 45; 55]%N [49%N] [55%N] []).
  left. split; [discriminate | reflexivity].
Defined.

Lemma digit_not_whiteSpace (c : N) : isDigit c = true -> isWhiteSpace c = false.
Proof.
  intros H. destruct (isWhiteSpace c) eqn:E; [|reflexivity].
  apply whiteSpace_not_kept in E. unfold kept in E. rewrite H in E.
  discriminate E.
Qed.

Lemma digit_not_sign (c : N) :
  isDigit c = true -> (c =? 45)%N = false /\ (c =? 43)%N = false.
Proof.
  unfold isDigit. intros H. apply andb_true_iff in H. destruct H as [H1 H2].
  apply N.leb_le in H1. split; apply N.eqb_neq; lia.
Qed.

(** *** Integers that are doubles *)

Lemma digits2_pos_bounds (m : positive) :
  (2 ^ (Z.pos (digits2_pos m) - 1) <= Z.pos m < 2 ^ Z.pos (digits2_pos m))%Z.
Proof.
  induction m as [m IH|m IH|]; cbn [digits2_pos].
  - rewrite Pos2Z.inj_succ.
    replace (Z.succ (Z.pos (digits2_pos m)) - 1)%Z
      with (Z.succ (Z.pos (digits2_pos m) - 1))%Z by lia.
    rewrite !Z.pow_succ_r by lia. lia.
  - rewrite Pos2Z.inj_succ.
    replace (Z.succ (Z.pos (digits2_pos m)) - 1)%Z
      with (Z.succ (Z.pos (digits2_pos m) - 1))%Z by lia.
    rewrite !Z.pow_succ_r by lia. lia.
  - cbn. lia.
Qed.

Lemma digits2_pos_iter (k m : positive) :
  digits2_pos (Pos.iter xO m k) = (digits2_pos m + k)%positive.
Proof.
  revert m. induction k as [|k IH] using Pos.peano_ind; intros m.
  - cbn [Pos.iter digits2_pos]. lia.
  - rewrite Pos.iter_succ. cbn [digits2_pos]. rewrite IH. lia.
Qed.

Lemma pos_iter_xO (k m : positive) :
  Z.pos (Pos.iter xO m k) = (Z.pos m * 2 ^ Z.pos k)%Z.
Proof.
  revert m. induction k as [|k IH] using Pos.peano_ind; intros m.
  - cbn [Pos.iter]. lia.
  - rewrite Pos.iter_succ, Pos2Z.inj_xO, IH, Pos2Z.inj_succ, Z.pow_succ_r by lia.
    lia.
Qed.

(** A mantissa of 53 bits with an exponent from -52 to 0 is rounded to
    itself. *)
Lemma binary_round_aux_canonical (s : bool) (mz : positive) (ez : Z) :
  Z.pos (digits2_pos mz) = 53%Z -> (-52 <= ez <= 0)%Z ->
  binary_round_aux 53 1024 s (Z.pos mz) ez loc_Exact = S754_finite s mz ez.
Proof.
  intros Hz He. unfold binary_round_aux, shr_fexp.
  cbn [Zdigits2 shr_record_of_loc]. rewrite Hz.
  assert (E0 : (fexp 53 1024 (53 + ez) - ez = 0)%Z) by (unfold fexp, emin; lia).
  rewrite E0.
  cbn [shr shr_m loc_of_shr_record round_nearest_even Zdigits2 shr_record_of_loc].
  rewrite Hz, E0. cbn [shr shr_m].
  assert (E1 : (ez <=? 1024 - 53)%Z = true) by (apply Z.leb_le; lia).
  rewrite E1. reflexivity.
Qed.

Lemma binary_round_exact (s : bool) (m : positive) :
  (Z.pos m < 2 ^ 53)%Z ->
  Double.toInteger (binary_round 53 1024 s m 0) = Some (cond_Zopp s (Z.pos m)).
Proof.
  intros H. pose proof (digits2_pos_bounds m) as [Hd _].
  assert (Hd53 : (Z.pos (digits2_pos m) <= 53)%Z).
  { destruct (Z.le_gt_cases (Z.pos (digits2_pos m)) 53) as [L|L]; [exact L|].
    exfalso.
    assert (2 ^ 53 <= 2 ^ (Z.pos (digits2_pos m) - 1))%Z
      by (apply Z.pow_le_mono_r; lia).
    lia. }
  unfold binary_round.
  assert (Ef : fexp 53 1024 (Z.pos (digits2_pos m) + 0)
               = (Z.pos (digits2_pos m) - 53)%Z)
    by (unfold fexp, emin; lia).
  rewrite Ef. unfold shl_align.
  destruct (Z.pos (digits2_pos m) - 53 - 0)%Z as [|d|d] eqn:Ed; try lia.
  - rewrite binary_round_aux_canonical by lia.
    cbn [Double.toInteger]. rewrite Z.shiftl_0_r. reflexivity.
  - rewrite binary_round_aux_canonical.
    + cbn [Double.toInteger]. f_equal. f_equal.
      replace (Z.pos (digits2_pos m) - 53)%Z with (- Z.pos d)%Z by lia.
      rewrite Z.shiftl_opp_r, Z.shiftr_div_pow2 by lia.
      rewrite pos_iter_xO. apply Z.div_mul. lia.
    + rewrite digits2_pos_iter. lia.
    + lia.
Qed.

(** An integer below 2^53 in size is a double as it stands. *)
Lemma ofZ_exact (z : Z) :
  (Z.abs z < 2 ^ 53)%Z -> Double.toInteger (Double.ofZ z) = Some z.
Proof.
  intros H. destruct z as [|m|m]; unfold Double.ofZ; cbn [binary_normalize].
  - reflexivity.
  - apply (binary_round_exact false). lia.
  - apply (binary_round_exact true). lia.
Qed.

Lemma digitsValue_nonneg (ds : JsString) :
  forall acc, forallb isDigit ds = true -> (0 <= acc)%Z ->
    (0 <= digitsValue acc ds)%Z.
Proof.
  induction ds as [|d ds IH]; intros acc Hd Ha; cbn [digitsValue].
  - exact Ha.
  - cbn [forallb] in Hd. apply andb_true_iff in Hd. destruct Hd as [H1 H2].
    apply IH; [exact H2|].
    unfold isDigit in H1. apply andb_true_iff in H1. destruct H1 as [H1 _].
    apply N.leb_le in H1. lia.
Qed.

(** What [parseInt] returns for a value that starts with digits, or
    with a minus sign and digits. *)
Lemma parseInt10_digits (d : N) (ds tail : JsString) :
  forallb isDigit (d :: ds) = true ->
  match tail with
  | [] => True
  | c :: _ => isDigit c = false
  end ->
  parseInt10 (d :: ds ++ tail) = Double.ofZ (digitsValue 0 (d :: ds)) /\
  parseInt10 (45%N :: d :: ds ++ tail)
  = Double.ofZ (- digitsValue 0 (d :: ds)).
Proof.
  intros Hd Ht.
  assert (Hd0 : isDigit d = true)
    by (cbn [forallb] in Hd; apply andb_true_iff in Hd; apply Hd).
  pose proof (digit_not_whiteSpace d Hd0) as Hw.
  destruct (digit_not_sign d Hd0) as [Hm Hp].
  assert (S1 : spanDigits (d :: ds ++ tail) = (d :: ds, tail))
    by (apply (spanDigits_digits (d :: ds) tail Hd Ht)).
  unfold parseInt10. cbn [trimStart].
  rewrite Hw. assert (Hws : isWhiteSpace 45 = false) by reflexivity.
  rewrite Hws. rewrite Hm, Hp. cbn [orb].
  assert (E45 : (45 =? 45)%N = true) by reflexivity. rewrite E45. cbn [orb].
  rewrite S1. cbn [fst]. split; reflexivity.
Qed.

(** X14.  [toInt] reads the digits a value starts with, after one
    optional minus sign, and nothing after them: what follows the
    first character that is not a digit is dropped, so that a fraction
    is cut off, not rounded.  When the digits are worth less than 2^53
    the result is their value as it stands, negated after a minus
    sign, and the default is not used.  (A longer run is rounded to a
    double, and one that rounds to an infinity gives the default.) *)
Theorem toInt_reads_leading_digits
    (d : N) (ds rest : JsString) (c : N) (def : Z) :
  forallb isDigit (d :: ds) = true -> isDigit c = false ->
  toInt (intOf (JsOther (d :: ds ++ c :: rest))) def
  = toInt (intOf (JsOther (d :: ds))) def /\
  toInt (intOf (JsOther (45%N :: d :: ds ++ c :: rest))) def
  = toInt (intOf (JsOther (45%N :: d :: ds))) def /\
  ((digitsValue 0 (d :: ds) < 2 ^ 53)%Z ->
   toInt (intOf (JsOther (d :: ds))) def = digitsValue 0 (d :: ds) /\
   toInt (intOf (JsOther (45%N :: d :: ds))) def
   = (- digitsValue 0 (d :: ds))%Z).
Proof.
  intros Hd Hc.
  destruct (parseInt10_digits d ds (c :: rest) Hd Hc) as [P1 P2].
  destruct (parseInt10_digits d ds [] Hd I) as [Q1 Q2].
  rewrite app_nil_r in Q1, Q2.
  unfold intOf. cbn [stringOf]. rewrite P1, P2, Q1, Q2.
  split; [reflexivity|]. split; [reflexivity|].
  intros Hv.
  pose proof (digitsValue_nonneg (d :: ds) 0 Hd (Z.le_refl 0)) as H0.
  rewrite !ofZ_exact by lia. cbn [toInt]. split; reflexivity.
Qed.

(** ["65.9"] is read as 65. *)
Lemma toInt_reads_leading_digits_witness :
  toInt (intOf (JsOther [54; 53; 46; 57]%N)) 0 = 65%Z.
Proof.
  destruct (toInt_reads_leading_digits 54%N [53%N] [57%N] 46%N 0%Z
              eq_refl eq_refl) as (H1 & _ & H3).
  exact (eq_trans H1 (proj1 (H3 eq_refl))).
Defined.

(** Beyond that range the helpers round, and beyond the doubles they
    fall back: ["9007199254740993"] is read as 9007199254740992; a run
    of 401 digits is read as an infinity, for which [toInt] returns its
    default; and [toNum] reads 1 followed by 309 zeros as 0. *)
Lemma helpers_round_and_overflow :
  toInt (intOf (JsOther [57; 48; 48; 55; 49; 57; 57; 50; 53; 52; 55; 52; 48;
                         57; 57; 51]%N)) 0
  = 9007199254740992%Z /\
  toInt (intOf (JsOther (repeat 57%N 401))) 7 = 7%Z /\
  toNum (rawOf (JsOther (49%N :: repeat 48%N 309))) = 0.
Proof. repeat split; vm_compute; reflexivity. Qed.
